(** * eyebraus/collections: Dict and List operations

    A shallow embedding of [src/dict/dict.ts] and [src/list/list.ts].

    - A [Dict] is a JavaScript object used as a string-keyed table.  An
      object is modelled by its own enumerable properties, the order in
      which they were created, and its prototype: [Object.prototype], or
      the object value that an assignment to [__proto__] has put in its
      place.  Reads fall back to the prototype chain, [for...in] also
      visits the enumerable properties of the chain, and an assignment to
      [__proto__] on an object that does not own such a property runs the
      setter inherited from [Object.prototype].  The host is one that
      provides [Object.prototype.__proto__], as browsers and Node.js do.
      Properties found along a prototype chain are taken to be writable
      data properties, as those of arrays and of plain objects are.
    - Values are the elements of a universe [V] ([JsValue]): equality of
      [V] is the equality of [Set] and [Map] keys, [===] is that equality
      except on NaN, and the universe tells which values are objects and
      what reading through them as a prototype yields.
    - Object identity (the [toBe] of the test-suite) is modelled by a heap:
      a reference is an index into the list of allocated objects, [{}] and
      [[]] allocate, and a function returns a reference. *)

From stdpp Require Import base decidable option numbers list gmap strings.
From stdpp Require Import sorting pretty.

(** ** The foundation package [@eyebraus/core] *)

Module Core.

(** Modelled from the spec: the optional value of [@eyebraus/core], absent
    from this repository: "Something wrapping exactly one non-absent value,
    or Nothing holding no value". *)
Inductive Maybe (A : Type) : Type :=
  | Something (value : A)
  | Nothing.
Arguments Something {A} value.
Arguments Nothing {A}.

(** Modelled from the spec: the "is-absent" predicate of [@eyebraus/core].
    A possibly-absent JavaScript value is an [option]; [None] is
    [undefined]. *)
Definition isNone {A : Type} (x : option A) : bool :=
  match x with
  | Some _ => false
  | None => true
  end.

(** Modelled from the spec: [wrap], which turns "a possibly-absent value into
    Nothing/Something". *)
Definition wrap {A : Type} (x : option A) : Maybe A :=
  match x with
  | Some a => Something a
  | None => Nothing
  end.

(** Modelled from the spec: the two-element tuple of [@eyebraus/core] and
    its accessors. *)
Definition Pair {A B : Type} (a : A) (b : B) : A * B := (a, b).

Definition first {A B : Type} (p : A * B) : A := fst p.

Definition second {A B : Type} (p : A * B) : B := snd p.

End Core.

Export Core.

(** ** JavaScript values *)

(** The one property name for which [Object.prototype] carries an
    accessor. *)
Definition proto_key : string := "__proto__".

(** The values that are NaN: the only values for which [v === v] is
    false. *)
Class NaN (A : Type) := is_nan : A -> bool.

(** [a === b]: the equality of the type, except that NaN is not equal to
    itself. *)
Definition strict_equal {A : Type} `{EqDecision A} `{NaN A} (a b : A) : bool :=
  bool_decide (a = b) && negb (is_nan a).

(** What an object shows to the objects that have it as their prototype:
    its enumerable properties and those of its own chain, in the order in
    which [for...in] visits them, and the value of every other property
    that a read finds along that chain, when it is a value of the
    universe. *)
Record chain (V : Type) : Type := Chain {
  chain_enumerable : list (string * V);
  chain_hidden : string -> option V
}.
Arguments Chain {V} chain_enumerable chain_hidden.
Arguments chain_enumerable {V} c.
Arguments chain_hidden {V} c.

(** A universe of values.  [as_prototype v] is [None] when [v] is a
    primitive value.  [object_prototype key] is what a read of [key]
    finds on [Object.prototype] (for [__proto__], what its getter answers
    for a plain object: [Object.prototype] itself), when that is a value
    of the universe. *)
Class JsValue (V : Type) := {
  value_eq_dec :: EqDecision V;
  value_nan :: NaN V;
  as_prototype : V -> option (chain V);
  object_prototype : string -> option V
}.

(** A universe that has arrays as values: [array_value items] is the array
    [[...items]].  The universe has one array for each list of items: the
    identity of arrays is not observed. *)
Class JsArrays (V : Type) := array_value : list V -> V.

(** ** Lists without repetition *)

(** The first occurrence of each distinct value of [l], in the order of
    [l]: the item at position [i] is kept when no earlier position holds an
    equal value. *)
Definition first_occurrences {A : Type} `{EqDecision A} (l : list A) : list A :=
  omap id (imap (fun i x => if decide (x ∈ take i l) then None else Some x) l).

(** ** Objects *)

(** The prototype of an object made by [{}]: [Object.prototype], unless an
    assignment to [__proto__] has replaced it by an object value. *)
Inductive prototype (V : Type) : Type :=
  | ObjectPrototype
  | Replaced (v : V).
Arguments ObjectPrototype {V}.
Arguments Replaced {V} v.

(** An object: its own enumerable properties, the keys in the order in
    which they were created, and its prototype. *)
Record object (V : Type) : Type := Object {
  props : gmap string V;
  created : list string;
  proto : prototype V
}.
Arguments Object {V} props created proto.
Arguments props {V} o.
Arguments created {V} o.
Arguments proto {V} o.

(** The value of a string of decimal digits. *)
Fixpoint digits_value (s : string) (acc : N) : option N :=
  match s with
  | EmptyString => Some acc
  | String c s' =>
      let n := Ascii.N_of_ascii c in
      if bool_decide (48 <= n <= 57)%N
      then digits_value s' (10 * acc + (n - 48))%N
      else None
  end.

(** A key is an array index when it is the canonical decimal form of an
    integer from 0 to 2^32 - 2. *)
Definition array_index (key : string) : option N :=
  match digits_value key 0%N with
  | Some n =>
      if bool_decide (pretty n = key) && bool_decide (n < 4294967295)%N
      then Some n else None
  | None => None
  end.

(** The order of two array indices. *)
Definition index_le (a b : string) : Prop :=
  (default 0 (array_index a) <= default 0 (array_index b))%N.

#[global] Instance index_le_dec (a b : string) : Decision (index_le a b).
Proof. unfold index_le. apply _. Defined.

Section JsObject.
Context {V : Type} `{JsValue V}.

(** [{}] *)
Definition obj_empty : object V := Object ∅ [] ObjectPrototype.

(** [Object.hasOwn(o, key)] *)
Definition has_own (o : object V) (key : string) : bool :=
  bool_decide (is_Some (props o !! key)).

(** The own keys in the order of their creation.  Keys that [created]
    does not list, of which an object built by assignments has none, come
    last. *)
Definition creation_order (o : object V) : list string :=
  first_occurrences
    (base.filter (fun key => is_Some (props o !! key)) (created o))
  ++ base.filter (fun key => key ∉ created o) (map_to_list (props o)).*1.

(** [Object.keys(o)]: the array indices in ascending order, then the other
    keys in the order of their creation. *)
Definition own_keys (o : object V) : list string :=
  merge_sort index_le
    (base.filter (fun key => is_Some (array_index key)) (creation_order o))
  ++ base.filter (fun key => ~ is_Some (array_index key)) (creation_order o).

(** The enumerable properties that the prototype chain of [o] shows. *)
Definition inherited (o : object V) : list (string * V) :=
  match proto o with
  | ObjectPrototype => []
  | Replaced v =>
      match as_prototype v with
      | Some c => chain_enumerable c
      | None => []
      end
  end.

(** The value that a read of [key] finds along the prototype chain of [o],
    when it is a value of the universe. *)
Definition inherited_read (o : object V) (key : string) : option V :=
  match proto o with
  | ObjectPrototype => object_prototype key
  | Replaced v =>
      match as_prototype v with
      | Some c =>
          match list_find (fun e => fst e = key) (chain_enumerable c) with
          | Some (_, e) => Some (snd e)
          | None =>
              match chain_hidden c key with
              | Some w => Some w
              | None => if decide (key = proto_key) then Some v else None
              end
          end
      | None => None
      end
  end.

(** [o[key]]: an own property wins, otherwise the prototype chain is
    searched.  [None] is [undefined], or a value outside the universe. *)
Definition prop_read (o : object V) (key : string) : option V :=
  match props o !! key with
  | Some v => Some v
  | None => inherited_read o key
  end.

(** [o[key] === value] *)
Definition read_equals (o : object V) (key : string) (value : V) : bool :=
  match prop_read o key with
  | Some w => strict_equal w value
  | None => false
  end.

(** [for (const key in o)]: the own keys, then the enumerable keys of the
    prototype chain that have not been visited. *)
Definition for_in (o : object V) : list string :=
  own_keys o
  ++ base.filter (fun key => props o !! key = None)
       (first_occurrences (inherited o).*1).

(** The keys of [for (const key in o)], each with [o[key]]. *)
Definition for_in_entries (o : object V) : list (string * V) :=
  omap (fun key => pair key <$> prop_read o key) (for_in o).

(** [o[key] = value].  An own property is overwritten where it stands.
    Otherwise a new own property is created, except for [__proto__]: there
    the setter inherited from [Object.prototype] runs, which takes an
    object value as the new prototype of [o] and ignores any other
    value. *)
Definition obj_set (o : object V) (key : string) (value : V) : object V :=
  match props o !! key with
  | Some _ => Object (<[key:=value]> (props o)) (created o) (proto o)
  | None =>
      if decide (key = proto_key)
      then match as_prototype value with
           | Some _ => Object (props o) (created o) (Replaced value)
           | None => o
           end
      else Object (<[key:=value]> (props o))
             (base.filter (fun k => k <> key) (created o) ++ [key]) (proto o)
  end.

(** Assigning a list of entries one after the other: what the loops of
    the constructor, of [filter] and of [map] do to the new object. *)
Definition assign_all (l : list (string * V)) (o : object V) : object V :=
  fold_left (fun map entry => obj_set map (fst entry) (snd entry)) l o.

(** [delete o[key]] *)
Definition obj_delete (o : object V) (key : string) : object V :=
  Object (delete key (props o))
    (base.filter (fun k => k <> key) (created o)) (proto o).

(** [Object.prototype[key] === value]: the value is the very member that
    every plain object inherits under that key. *)
Definition on_object_prototype (key : string) (value : V) : bool :=
  match object_prototype key with
  | Some w => strict_equal w value
  | None => false
  end.

(** A plain object: its prototype is [Object.prototype] and it owns no
    property called [__proto__] (which only [Object.defineProperty],
    [JSON.parse] and the like can create). *)
Definition plain (o : object V) : Prop :=
  proto o = ObjectPrototype /\ props o !! proto_key = None.

End JsObject.

(** ** The heap *)

Definition loc : Type := nat.

Section Heap.
Context {A : Type}.

(** Allocation appends; nothing is ever freed. *)
Definition alloc (h : list A) (a : A) : loc * list A :=
  (length h, h ++ [a]).

(** In-place update of an allocated cell. *)
Definition store (h : list A) (l : loc) (a : A) : list A := <[l:=a]> h.

End Heap.

(** The heap of the Dict module holds objects, the heap of the List module
    holds arrays. *)
Abbreviation heap V := (list (object V)).

(** The object a Dict reference points to. *)
Definition deref {V : Type} (h : heap V) (d : loc) : object V :=
  default (Object ∅ [] ObjectPrototype) (h !! d).

(** ** [src/dict/dict.ts] *)

Module Dict.

(** The optional argument of the constructor:
    [value?: Dict<TValue> | Pair<string, TValue>[]]. *)
Inductive DictArg (V : Type) : Type :=
  | NoValue
  | OfDict (value : loc)
  | OfPairs (value : list (string * V)).
Arguments NoValue {V}.
Arguments OfDict {V} value.
Arguments OfPairs {V} value.

Section Operations.
Context {V : Type} `{JsValue V}.

(** The object built by [Dict(value)], before it is returned. *)
Definition Dict_object (h : heap V) (value : DictArg V) : object V :=
  match value with
  | NoValue => obj_empty
  | OfPairs pairs =>
      fold_left (fun map pair => obj_set map (first pair) (second pair))
        pairs obj_empty
  | OfDict d =>
      fold_left (fun map entry => obj_set map (fst entry) (snd entry))
        (for_in_entries (deref h d)) obj_empty
  end.

(** [Dict(value)]: always a newly allocated object. *)
Definition Dict (h : heap V) (value : DictArg V) : loc * heap V :=
  alloc h (Dict_object h value).

(** [forEach(dict, fn)], with the effect of [fn] on the caller's variables
    made explicit as a state [S]. *)
Definition forEach {S : Type} (h : heap V) (dict : loc)
    (fn : V -> string -> S -> S) (s : S) : S :=
  fold_left (fun s entry => fn (snd entry) (fst entry) s)
    (for_in_entries (deref h dict)) s.

(** The loop of [filter]: the pair [(copy, anyFilteredOut)]. *)
Definition filter_loop (predicate : V -> string -> bool) (dict : object V)
    : object V * bool :=
  fold_left
    (fun st entry =>
       if predicate (snd entry) (fst entry)
       then (obj_set (fst st) (fst entry) (snd entry), snd st)
       else (fst st, true))
    (for_in_entries dict) (obj_empty, false).

(** [filter(dict, predicate)]: [copy] is allocated on entry, and returned
    only when something was filtered out. *)
Definition filter (h : heap V) (dict : loc) (predicate : V -> string -> bool)
    : loc * heap V :=
  let '(copy, h1) := alloc h obj_empty in
  let '(filled, anyFilteredOut) := filter_loop predicate (deref h dict) in
  let h2 := store h1 copy filled in
  (if anyFilteredOut then copy else dict, h2).

(** [has(dict, key)] *)
Definition has (h : heap V) (dict : loc) (key : string) : bool :=
  has_own (deref h dict) key.

(** [get(dict, key)]: [has(dict, key) ? Something(dict[key]) : Nothing()] *)
Definition get (h : heap V) (dict : loc) (key : string) : Maybe V :=
  if has h dict key
  then match prop_read (deref h dict) key with
       | Some v => Something v
       | None => Nothing
       end
  else Nothing.

(** [keys(dict)] *)
Definition keys (h : heap V) (dict : loc) : list string :=
  own_keys (deref h dict).

(** [entries(dict)]: [keys(dict).map((key) => Pair(key, dict[key]))] *)
Definition entries (h : heap V) (dict : loc) : list (string * V) :=
  omap (fun key => Pair key <$> prop_read (deref h dict) key) (keys h dict).

(** [remove(dict, key)] *)
Definition remove (h : heap V) (dict : loc) (key : string) : loc * heap V :=
  if negb (has h dict key) then (dict, h)
  else
    let '(copy, h1) := Dict h (OfDict dict) in
    (copy, store h1 copy (obj_delete (deref h1 copy) key)).

(** [set(dict, key, value)] *)
Definition set (h : heap V) (dict : loc) (key : string) (value : V)
    : loc * heap V :=
  if read_equals (deref h dict) key value then (dict, h)
  else
    let '(copy, h1) := Dict h (OfDict dict) in
    (copy, store h1 copy (obj_set (deref h1 copy) key value)).

(** [merge(...dicts)] *)
Definition merge (h : heap V) (dicts : list loc) : loc * heap V :=
  match dicts with
  | [] => alloc h obj_empty
  | [only] => (only, h)
  | copy :: rest =>
      fold_left
        (fun st dict =>
           forEach (snd st) dict
             (fun value key st' => set (snd st') (fst st') key value) st)
        rest (copy, h)
  end.

(** [keys(dict).length]: [size(dict)] *)
Definition size (h : heap V) (dict : loc) : nat := length (keys h dict).

(** [values(dict)]: [Object.values(dict)], the own values in the order of
    [Object.keys]. *)
Definition values (h : heap V) (dict : loc) : list V :=
  omap (fun key => props (deref h dict) !! key) (own_keys (deref h dict)).

(** [every(dict, predicate)]:
    [entries(dict).every((entry) => predicate(second(entry), first(entry)))] *)
Definition every (h : heap V) (dict : loc) (predicate : V -> string -> bool)
    : bool :=
  forallb (fun entry => predicate (second entry) (first entry)) (entries h dict).

(** [some(dict, predicate)]:
    [entries(dict).some((entry) => predicate(second(entry), first(entry)))] *)
Definition some (h : heap V) (dict : loc) (predicate : V -> string -> bool)
    : bool :=
  existsb (fun entry => predicate (second entry) (first entry)) (entries h dict).

(** [reduce(dict, fn, initialValue)] *)
Definition reduce {R : Type} (h : heap V) (dict : loc)
    (fn : R -> V -> string -> R) (initialValue : R) : R :=
  fold_left
    (fun previousValue currentPair =>
       fn previousValue (second currentPair) (first currentPair))
    (entries h dict) initialValue.

(** The loop of [map]: the pair [(copy, anyChanged)].  The types [TValueIn]
    and [TValueOut] are erased when the code runs, where [next] and
    [dict[key]] are compared as values of one universe. *)
Definition map_loop (fn : V -> string -> V) (dict : object V)
    : object V * bool :=
  fold_left
    (fun st entry =>
       let next := fn (snd entry) (fst entry) in
       (obj_set (fst st) (fst entry) next,
        if negb (strict_equal next (snd entry)) then true else snd st))
    (for_in_entries dict) (obj_empty, false).

(** [map(dict, fn)]: [copy] is allocated on entry, and returned only when
    some value changed. *)
Definition map (h : heap V) (dict : loc) (fn : V -> string -> V)
    : loc * heap V :=
  let '(copy, h1) := alloc h obj_empty in
  let '(filled, anyChanged) := map_loop fn (deref h dict) in
  let h2 := store h1 copy filled in
  (if anyChanged then copy else dict, h2).

End Operations.

End Dict.

(** ** The loops of [merge], named *)

Section MergeLoops.
Context {V : Type} `{JsValue V}.

(** The inner loop of [merge]: every visited entry of one argument is
    [set] onto the accumulator. *)
Definition set_all (l : list (string * V)) (st : loc * heap V) : loc * heap V :=
  fold_left (fun st e => Dict.set (snd st) (fst st) (fst e) (snd e)) l st.

(** The outer loop of [merge]. *)
Definition merge_all (rest : list loc) (st : loc * heap V) : loc * heap V :=
  fold_left
    (fun st dict =>
       Dict.forEach (snd st) dict
         (fun value key st' => Dict.set (snd st') (fst st') key value) st)
    rest st.

End MergeLoops.

(** ** [src/list/list.ts] *)

Module List_.

(** The heap of arrays: a List reference points to its items. *)
Definition items {V : Type} (h : list (list V)) (l : loc) : list V :=
  default [] (h !! l).

(** [list[i]] for an integral [i]: [undefined] outside [0 .. length - 1]. *)
Definition index {V : Type} (lst : list V) (i : Z) : option V :=
  if decide (0 <= i)%Z then lst !! Z.to_nat i else None.

(** The relative index of [Array.prototype.slice]: counted from the end when
    negative, clamped to [0 .. len]. *)
Definition relative_index (len i : Z) : Z :=
  if decide (i < 0)%Z then Z.max (len + i) 0 else Z.min i len.

(** [list.slice(start, end)]; [end] omitted is [None]. *)
Definition slice {V : Type} (lst : list V) (start : Z) (end_ : option Z)
    : list V :=
  let len := Z.of_nat (length lst) in
  let k := relative_index len start in
  let final := match end_ with
               | None => len
               | Some e => relative_index len e
               end in
  take (Z.to_nat (final - k)) (drop (Z.to_nat k) lst).

(** [end(list)]: [wrap(isNone(list) ? undefined : list[list.length - 1])] *)
Definition end_ {V : Type} (lst : list V) : Maybe V :=
  wrap (if isNone (Some lst) then None
        else index lst (Z.of_nat (length lst) - 1)).

(** [front(list)]: [list.slice(0, -1)] *)
Definition front {V : Type} (lst : list V) : list V :=
  slice lst 0 (Some (-1)%Z).

(** [head(list)]: [wrap(isNone(list) ? undefined : list[0])] *)
Definition head {V : Type} (lst : list V) : Maybe V :=
  wrap (if isNone (Some lst) then None else index lst 0).

(** [tail(list)]: [list.slice(1)] *)
Definition tail {V : Type} (lst : list V) : list V :=
  slice lst 1 None.

Section Unique.
Context {V : Type} `{Countable V}.

(** The loop of [unique]: the triple [(alreadySeen, copy, anyRemoved)]. *)
Definition unique_loop (lst : list V) : gset V * list V * bool :=
  fold_left
    (fun st value =>
       if decide (value ∈ st.1.1) then (st.1.1, st.1.2, true)
       else ({[value]} ∪ st.1.1, st.1.2 ++ [value], st.2))
    lst (∅, [], false).

(** The items of the array that [unique] returns. *)
Definition unique_items (lst : list V) : list V :=
  if (unique_loop lst).2 then (unique_loop lst).1.2 else lst.

(** [unique(list)]: [copy] is allocated on entry, and returned only when
    something was removed. *)
Definition unique (h : list (list V)) (lst : loc) : loc * list (list V) :=
  let '(copy, h1) := alloc h [] in
  let st := unique_loop (items h lst) in
  (if st.2 then copy else lst, store h1 copy st.1.2).

End Unique.

(** [group(list, groupBy)].  The keys are made unique by [unique], with
    the equality of [Set]; the members of a key are selected with [===]. *)
Definition group {K V : Type} `{Countable K} `{NaN K} (lst : list V)
    (groupBy : V -> nat -> K) : list (K * list V) :=
  let pairs := imap (fun index value => Pair (groupBy value index) value) lst in
  let groupKeys := unique_items (first <$> pairs) in
  fold_left
    (fun groups groupKey =>
       groups ++
       [Pair groupKey
          (second <$> base.filter
                        (fun pair => strict_equal groupKey (first pair) = true)
                        pairs)])
    groupKeys [].

(** No string is NaN. *)
#[global] Instance string_nan : NaN string := fun _ => false.

(** [groupInto(list, groupBy)]: [Dict(group(list, groupBy))].  The values of
    the resulting Dict are the arrays of members, as values of the
    universe. *)
Definition groupInto {V : Type} `{JsValue V} `{JsArrays V} (h : heap V)
    (lst : list V) (groupBy : V -> nat -> string) : loc * heap V :=
  Dict.Dict h
    (Dict.OfPairs
       ((fun g => Pair (first g) (array_value (second g))) <$> group lst groupBy)).

End List_.

(** ** Spec-side notions used in the statements *)

(** The items of [l] whose computed key is [key], in the order of [l]. *)
Definition members_with_key {K V : Type} `{EqDecision K}
    (groupBy : V -> nat -> K) (l : list V) (key : K) : list V :=
  omap id (imap (fun i x => if decide (groupBy x i = key) then Some x else None) l).

(** ** Universes and data of the test-suite *)

(** The universe of the integers: no NaN and no objects among the values,
    so that nothing found on [Object.prototype] is a value. *)
#[global] Instance Z_nan : NaN Z := fun _ => false.

#[global] Instance Z_values : JsValue Z := {
  as_prototype := fun _ => None;
  object_prototype := fun _ => None
}.

#[global] Instance nat_nan : NaN nat := fun _ => false.

(** Numbers with NaN, as keys of [group]. *)
Inductive number : Type :=
  | Num (z : Z)
  | NotANumber.

#[global] Instance number_eq_dec : EqDecision number.
Proof. solve_decision. Defined.

#[global] Instance number_countable : Countable number.
Proof.
  apply (inj_countable'
           (fun n => match n with Num z => Some z | NotANumber => None end)
           (fun o => match o with Some z => Num z | None => NotANumber end)).
  by intros [].
Defined.

#[global] Instance number_nan : NaN number :=
  fun n => match n with Num _ => false | NotANumber => true end.

(** A universe with numbers, NaN, strings, arrays, the function [Object]
    and the object [Object.prototype]. *)
#[local] Set Warnings "-register-all".
Inductive sample : Type :=
  | SNumber (z : Z)
  | SNaN
  | SString (s : string)
  | SArray (items : list sample)
  | SObjectFunction
  | SObjectPrototype.

#[global] Instance sample_eq_dec : EqDecision sample.
Proof.
  refine (fix go (a b : sample) {struct a} : Decision (a = b) :=
    match a, b with
    | SNumber x, SNumber y => cast_if (decide (x = y))
    | SNaN, SNaN => left _
    | SString s, SString t => cast_if (decide (s = t))
    | SArray l, SArray k => cast_if (@list_eq_dec _ go l k)
    | SObjectFunction, SObjectFunction => left _
    | SObjectPrototype, SObjectPrototype => left _
    | _, _ => right _
    end); congruence.
Defined.

#[global] Instance sample_nan : NaN sample :=
  fun v => match v with SNaN => true | _ => false end.

(** What [Object.prototype] shows to a read, in the universe [sample]:
    [constructor] is the function [Object], and [__proto__] answers
    [Object.prototype]. *)
Definition sample_object_prototype (key : string) : option sample :=
  if decide (key = "constructor"%string) then Some SObjectFunction
  else if decide (key = proto_key) then Some SObjectPrototype
  else None.

(** An array shows its items under their indices, which are enumerable,
    and its length; a function and [Object.prototype] show nothing
    enumerable.  What lies further up the chain of an array or of a
    function ([Array], [Function] and the methods) is no value of this
    universe. *)
Definition sample_as_prototype (v : sample) : option (chain sample) :=
  match v with
  | SArray items =>
      Some (Chain (imap (fun i x => (pretty (N.of_nat i), x)) items)
              (fun key =>
                 if decide (key = "length"%string)
                 then Some (SNumber (Z.of_nat (length items)))
                 else None))
  | SObjectFunction => Some (Chain [] (fun _ => None))
  | SObjectPrototype => Some (Chain [] sample_object_prototype)
  | _ => None
  end.

#[global] Instance sample_values : JsValue sample := {
  as_prototype := sample_as_prototype;
  object_prototype := sample_object_prototype
}.

#[global] Instance sample_arrays : JsArrays sample := SArray.

(** The three dictionaries of the [merge] test of [dict.spec.ts],
    [{ a: 1, b: 999, c: 3 }], [{ c: 1, d: 999, e: 3 }] and
    [{ b: 1, e: 999, f: 3 }], built by the constructor in this order at the
    references [0], [1] and [2]. *)
Definition test_heap : heap Z :=
  let r1 := Dict.Dict [] (Dict.OfPairs [("a", 1); ("b", 999); ("c", 3)]%string%Z) in
  let r2 := Dict.Dict r1.2 (Dict.OfPairs [("c", 1); ("d", 999); ("e", 3)]%string%Z) in
  (Dict.Dict r2.2 (Dict.OfPairs [("b", 1); ("e", 999); ("f", 3)]%string%Z)).2.

(** The array [[1, 2, 3, 1, 2]] of the [unique] test of [list.spec.ts], at
    the reference [0]. *)
Definition test_arrays : list (list Z) := [[1; 2; 3; 1; 2]%Z].

(** The key function of the [group] test: [(value) => value.length]. *)
Definition by_length (value : string) (index : nat) : nat := String.length value.

(** The object that [JSON.parse('{"__proto__":1,"a":2}')] returns: it owns
    a property called [__proto__]. *)
Definition parsed_object : object Z :=
  Object (<["__proto__"%string := 1%Z]> (<["a"%string := 2%Z]> ∅))
    ["__proto__"; "a"]%string ObjectPrototype.

(** The heap in which [JSON.parse('{"__proto__":1,"a":2}')] is at the
    reference [0]. *)
Definition parsed_heap : heap Z := [parsed_object].

(** [Dict()] at the reference [0] and [Dict([["constructor", Object]])] at
    the reference [1]. *)
Definition constructor_heap : heap sample :=
  let r := Dict.Dict [] Dict.NoValue in
  (Dict.Dict r.2 (Dict.OfPairs [("constructor"%string, SObjectFunction)])).2.

(** A key function that sends ["z"] to the key ["a"] and every other item
    to the key ["__proto__"]. *)
Definition proto_or_a (value : sample) (index : nat) : string :=
  if decide (value = SString "z") then "a"%string else proto_key.

(** The heap in which [groupInto(["x", "y", "z"], proto_or_a)] is at the
    reference [0]: its own property [a] is [["z"]], and its prototype is the
    array [["x", "y"]]. *)
Definition grouped_heap : heap sample :=
  (List_.groupInto [] [SString "x"; SString "y"; SString "z"] proto_or_a).2.

(** [{ a: NaN }] at the reference [0]. *)
Definition nan_heap : heap sample :=
  (Dict.Dict [] (Dict.OfPairs [("a"%string, SNaN)])).2.

(** The first letter of a string of the universe [sample]. *)
Definition first_letter (value : sample) (index : nat) : string :=
  match value with
  | SString s => String.substring 0 1 s
  | _ => ""%string
  end.

(** * Properties *)

(** ** Heap and object lemmas *)

Section FirstOccurrences.
Context {A : Type} `{EqDecision A}.
Implicit Types (l : list A) (x : A).

Lemma first_occurrences_snoc l x :
  first_occurrences (l ++ [x])
  = first_occurrences l ++ (if decide (x ∈ l) then [] else [x]).
Proof.
  unfold first_occurrences. rewrite imap_app, omap_app. f_equal.
  - f_equal. apply imap_ext. intros i y Hi. simpl.
    rewrite take_app_le; [done|]. apply lookup_lt_Some in Hi. lia.
  - simpl. rewrite Nat.add_0_r, take_app_length.
    by destruct (decide (x ∈ l)).
Qed.

Lemma elem_of_first_occurrences l x : x ∈ first_occurrences l <-> x ∈ l.
Proof.
  induction l as [|y l IH] using rev_ind; [done|].
  rewrite first_occurrences_snoc, !elem_of_app, IH.
  destruct (decide (y ∈ l)) as [Hy|Hy]; [|done].
  split; intros [Hx|Hx]; auto.
  - by apply elem_of_nil in Hx.
  - apply list_elem_of_singleton in Hx. subst x. by left.
Qed.

Lemma first_occurrences_NoDup l : NoDup (first_occurrences l).
Proof.
  induction l as [|y l IH] using rev_ind; [constructor|].
  rewrite first_occurrences_snoc. apply NoDup_app. split; [done|]. split.
  - intros x Hx. apply (proj1 (elem_of_first_occurrences l x)) in Hx.
    destruct (decide (y ∈ l)) as [Hy|Hy]; [apply not_elem_of_nil|].
    intros Hxy. apply list_elem_of_singleton in Hxy. subst x. by apply Hy.
  - destruct (decide (y ∈ l)); [constructor|apply NoDup_singleton].
Qed.


Lemma first_occurrences_id l : NoDup l -> first_occurrences l = l.
Proof.
  induction l as [|y l IH] using rev_ind; intros Hnd; [done|].
  apply NoDup_app in Hnd as (Hl & Hy & _).
  rewrite first_occurrences_snoc, IH by done.
  destruct (decide (y ∈ l)) as [Hin|]; [|done].
  exfalso. apply (Hy y Hin). by left.
Qed.

Lemma NoDup_snoc l x : NoDup (l ++ [x]) <-> NoDup l /\ x ∉ l.
Proof.
  rewrite NoDup_app. split.
  - intros (Hl & Hx & _). split; [done|]. intros Hin. apply (Hx x Hin). by left.
  - intros [Hl Hx]. split; [done|]. split; [|apply NoDup_singleton].
    intros y Hy Hyx. apply list_elem_of_singleton in Hyx. subst y. by apply Hx.
Qed.

End FirstOccurrences.

Section HeapFacts.
Context {A : Type}.
Implicit Types (h : list A) (a : A) (l : loc).

Lemma store_alloc h a b : store (h ++ [a]) (length h) b = h ++ [b].
Proof.
  unfold store. rewrite insert_app_r_alt by lia.
  by rewrite Nat.sub_diag.
Qed.

Lemma lookup_alloc_new h a : (h ++ [a]) !! length h = Some a.
Proof. by rewrite lookup_app_r, Nat.sub_diag by lia. Qed.

Lemma lookup_alloc_old h a l : l < length h -> (h ++ [a]) !! l = h !! l.
Proof. intros Hl. by rewrite lookup_app_l. Qed.

Lemma lookup_prefix_old h h' l : h `prefix_of` h' -> l < length h -> h' !! l = h !! l.
Proof. intros [k ->] Hl. by rewrite lookup_app_l. Qed.

End HeapFacts.

Section StrictEquality.
Context {A : Type} `{EqDecision A} `{NaN A}.

Lemma strict_equal_eq (a b : A) : strict_equal a b = true -> a = b.
Proof.
  unfold strict_equal. intros Hab. apply andb_true_iff in Hab as [Hab _].
  by apply bool_decide_eq_true in Hab.
Qed.

Lemma strict_equal_true (a b : A) :
  strict_equal a b = true <-> a = b /\ is_nan a = false.
Proof.
  unfold strict_equal. rewrite andb_true_iff, bool_decide_eq_true, negb_true_iff.
  done.
Qed.

Lemma strict_equal_refl (a : A) : strict_equal a a = negb (is_nan a).
Proof. unfold strict_equal. by rewrite bool_decide_eq_true_2. Qed.

Lemma strict_equal_nan (a b : A) : is_nan a = true -> strict_equal a b = false.
Proof. intros Ha. unfold strict_equal. rewrite Ha. apply andb_false_r. Qed.

End StrictEquality.

Section ObjectFacts.
Context {V : Type} `{JsValue V}.
Implicit Types (o : object V) (h : heap V) (k key : string) (v : V).

Lemma lookup_obj_set_ne o k k' v :
  k' <> k -> props (obj_set o k v) !! k' = props o !! k'.
Proof.
  intros Hne. unfold obj_set.
  destruct (props o !! k) as [w|] eqn:Hk; simpl.
  - by rewrite lookup_insert_ne.
  - destruct (decide (k = proto_key)).
    + by destruct (as_prototype v).
    + simpl. by rewrite lookup_insert_ne.
Qed.

Lemma lookup_obj_set_eq o k v :
  k <> proto_key -> props (obj_set o k v) !! k = Some v.
Proof.
  intros Hne. unfold obj_set.
  destruct (props o !! k) as [w|] eqn:Hk; simpl.
  - apply lookup_insert_eq.
  - rewrite decide_False by done. simpl. apply lookup_insert_eq.
Qed.

Lemma props_obj_set_ne o k v :
  k <> proto_key -> props (obj_set o k v) = <[k:=v]> (props o).
Proof.
  intros Hne. unfold obj_set.
  destruct (props o !! k) as [w|] eqn:Hk; simpl; [done|].
  by rewrite decide_False by done.
Qed.

Lemma proto_obj_set_ne o k v :
  k <> proto_key -> proto (obj_set o k v) = proto o.
Proof.
  intros Hne. unfold obj_set.
  destruct (props o !! k) as [w|] eqn:Hk; simpl; [done|].
  by rewrite decide_False by done.
Qed.

(** Assignment never makes an object own a property called [__proto__]. *)
Lemma props_obj_set_proto o v :
  props o !! proto_key = None -> props (obj_set o proto_key v) = props o.
Proof.
  intros Hk. unfold obj_set. rewrite Hk.
  rewrite decide_True by done. by destruct (as_prototype v).
Qed.

Lemma obj_set_keeps_no_proto o k v :
  props o !! proto_key = None -> props (obj_set o k v) !! proto_key = None.
Proof.
  intros Hk. destruct (decide (k = proto_key)) as [->|Hne].
  - by rewrite props_obj_set_proto.
  - by rewrite lookup_obj_set_ne.
Qed.

Lemma props_obj_delete o k : props (obj_delete o k) = delete k (props o).
Proof. reflexivity. Qed.

Lemma deref_alloc_new h o : deref (h ++ [o]) (length h) = o.
Proof. unfold deref. by rewrite lookup_alloc_new. Qed.

Lemma deref_alloc_old h o d : d < length h -> deref (h ++ [o]) d = deref h d.
Proof. intros Hd. unfold deref. by rewrite lookup_alloc_old. Qed.

Lemma deref_prefix h h' d : h `prefix_of` h' -> d < length h -> deref h' d = deref h d.
Proof. intros Hp Hd. unfold deref. by rewrite (lookup_prefix_old h h'). Qed.

Lemma has_own_true o k : has_own o k = true <-> is_Some (props o !! k).
Proof. unfold has_own. apply bool_decide_eq_true. Qed.

Lemma has_own_false o k : has_own o k = false <-> props o !! k = None.
Proof.
  unfold has_own. rewrite bool_decide_eq_false. symmetry. apply eq_None_not_Some.
Qed.

Lemma prop_read_own o k v : props o !! k = Some v -> prop_read o k = Some v.
Proof. intros Hk. unfold prop_read. by rewrite Hk. Qed.

Lemma prop_read_plain o k :
  proto o = ObjectPrototype -> props o !! k = None ->
  prop_read o k = object_prototype k.
Proof.
  intros Hp Hk. unfold prop_read, inherited_read. by rewrite Hk, Hp.
Qed.

(** The keys in creation order are the own keys, each once. *)
Lemma elem_of_creation_order o k :
  k ∈ creation_order o <-> is_Some (props o !! k).
Proof.
  unfold creation_order. rewrite elem_of_app, elem_of_first_occurrences.
  rewrite !list_elem_of_filter. split.
  - intros [[Hk _]|[_ Hk]]; [done|].
    apply list_elem_of_fmap in Hk as [[k' v] [-> Hk]].
    apply elem_of_map_to_list in Hk. by eexists.
  - intros [v Hk]. destruct (decide (k ∈ created o)) as [Hin|Hout].
    + left. split; [by eexists|done].
    + right. split; [done|]. apply list_elem_of_fmap. exists (k, v).
      split; [done|]. by apply elem_of_map_to_list.
Qed.

Lemma NoDup_creation_order o : NoDup (creation_order o).
Proof.
  unfold creation_order. apply NoDup_app. split; [apply first_occurrences_NoDup|].
  split.
  - intros k Hk1 Hk2. apply elem_of_first_occurrences, list_elem_of_filter in Hk1.
    apply list_elem_of_filter in Hk2. destruct Hk1 as [_ Hk1]. by destruct Hk2.
  - apply NoDup_filter, NoDup_fst_map_to_list.
Qed.

Lemma own_keys_creation_order o : own_keys o ≡ₚ creation_order o.
Proof.
  unfold own_keys. rewrite merge_sort_Permutation. apply filter_app_complement.
Qed.

Lemma elem_of_own_keys o k : k ∈ own_keys o <-> is_Some (props o !! k).
Proof. rewrite own_keys_creation_order. apply elem_of_creation_order. Qed.

Lemma NoDup_own_keys o : NoDup (own_keys o).
Proof. rewrite own_keys_creation_order. apply NoDup_creation_order. Qed.

(** Every key of a list of own keys is read from the object itself. *)
Lemma omap_read_own o (ks : list string) :
  (forall k, k ∈ ks -> is_Some (props o !! k)) ->
  omap (fun key => pair key <$> prop_read o key) ks
  = omap (fun key => pair key <$> props o !! key) ks.
Proof.
  intros Hks. induction ks as [|k ks IH]; [done|]. simpl.
  destruct (Hks k) as [v Hk]; [by left|].
  rewrite (prop_read_own o k v Hk), Hk. simpl. f_equal.
  apply IH. intros k' Hk'. apply Hks. by right.
Qed.

Lemma elem_of_omap_own o (ks : list string) k v :
  (k, v) ∈ omap (fun key => pair key <$> props o !! key) ks
  <-> k ∈ ks /\ props o !! k = Some v.
Proof.
  rewrite list_elem_of_omap. split.
  - intros (k' & Hk' & Hv). destruct (props o !! k') as [w|] eqn:Hw; [|done].
    simpl in Hv. injection Hv as -> ->. done.
  - intros [Hk Hv]. exists k. split; [done|]. by rewrite Hv.
Qed.

Lemma fst_omap_own o (ks : list string) :
  (forall k, k ∈ ks -> is_Some (props o !! k)) ->
  (omap (fun key => pair key <$> props o !! key) ks).*1 = ks.
Proof.
  intros Hks. induction ks as [|k ks IH]; [done|]. simpl.
  destruct (Hks k) as [v Hk]; [by left|]. rewrite Hk. simpl. f_equal.
  apply IH. intros k' Hk'. apply Hks. by right.
Qed.

(** On an object whose prototype is [Object.prototype], [for...in] visits
    the own keys and nothing else. *)
Lemma for_in_object_prototype o :
  proto o = ObjectPrototype -> for_in o = own_keys o.
Proof.
  intros Hp. unfold for_in, inherited. rewrite Hp. simpl. apply app_nil_r.
Qed.

End ObjectFacts.

(** ** Lemmas on the Dict operations *)

Section DictFacts.
Context {V : Type} `{JsValue V}.
Implicit Types (o : object V) (h : heap V) (d : loc) (k key : string) (v : V).

Lemma assign_all_snoc l k v o :
  assign_all (l ++ [(k, v)]) o = obj_set (assign_all l o) k v.
Proof. unfold assign_all. by rewrite fold_left_app. Qed.

Lemma assign_all_notin l o k :
  k ∉ l.*1 -> props (assign_all l o) !! k = props o !! k.
Proof.
  revert o. induction l as [|[k' v'] l IH]; intros o Hk; [done|].
  simpl in *. apply not_elem_of_cons in Hk as [Hne Hk].
  unfold assign_all in *. simpl. rewrite IH by done.
  by apply lookup_obj_set_ne.
Qed.

Lemma assign_all_last l1 l2 o k v :
  k ∉ l2.*1 -> k <> proto_key ->
  props (assign_all (l1 ++ (k, v) :: l2) o) !! k = Some v.
Proof.
  intros Hk Hne. unfold assign_all. rewrite fold_left_app. simpl.
  fold (assign_all l1 o).
  fold (assign_all l2 (obj_set (assign_all l1 o) k v)).
  rewrite assign_all_notin by done. by apply lookup_obj_set_eq.
Qed.

Lemma assign_all_in l o k v :
  NoDup l.*1 -> (k, v) ∈ l -> k <> proto_key ->
  props (assign_all l o) !! k = Some v.
Proof.
  intros Hnd Hin Hne.
  apply list_elem_of_split in Hin as (l1 & l2 & ->).
  apply assign_all_last; [|done].
  rewrite fmap_app, fmap_cons in Hnd. apply NoDup_app in Hnd as (_ & _ & Hnd).
  by apply NoDup_cons in Hnd as [Hnd _].
Qed.

Lemma assign_all_no_proto l o :
  props o !! proto_key = None -> props (assign_all l o) !! proto_key = None.
Proof.
  revert o. induction l as [|[k v] l IH]; intros o Ho; [done|].
  unfold assign_all in *. simpl. apply IH. by apply obj_set_keeps_no_proto.
Qed.

Lemma assign_all_proto l o :
  proto_key ∉ l.*1 -> proto (assign_all l o) = proto o.
Proof.
  revert o. induction l as [|[k v] l IH]; intros o Hk; [done|].
  simpl in Hk. apply not_elem_of_cons in Hk as [Hne Hk].
  unfold assign_all in *. simpl. rewrite IH by done.
  apply proto_obj_set_ne. congruence.
Qed.

Lemma Dict_object_pairs h pairs :
  Dict.Dict_object h (Dict.OfPairs pairs) = assign_all pairs obj_empty.
Proof. reflexivity. Qed.

Lemma Dict_object_dict h d :
  Dict.Dict_object h (Dict.OfDict d)
  = assign_all (for_in_entries (deref h d)) obj_empty.
Proof. reflexivity. Qed.

(** An object built by the constructor never owns [__proto__]. *)
Lemma Dict_object_no_proto h arg :
  props (Dict.Dict_object h arg) !! proto_key = None.
Proof.
  destruct arg as [|d|pairs]; [done| |].
  - rewrite Dict_object_dict. by apply assign_all_no_proto.
  - rewrite Dict_object_pairs. by apply assign_all_no_proto.
Qed.

(** [entries] reads own properties only. *)
Lemma entries_own h d :
  Dict.entries h d
  = omap (fun key => pair key <$> props (deref h d) !! key) (own_keys (deref h d)).
Proof.
  unfold Dict.entries, Dict.keys, Pair. apply omap_read_own.
  intros k. apply elem_of_own_keys.
Qed.

Lemma elem_of_entries h d k v :
  (k, v) ∈ Dict.entries h d <-> props (deref h d) !! k = Some v.
Proof.
  rewrite entries_own, elem_of_omap_own, elem_of_own_keys. split.
  - by intros [_ Hv].
  - intros Hv. split; [by eexists|done].
Qed.

Lemma fst_entries h d : (Dict.entries h d).*1 = Dict.keys h d.
Proof.
  rewrite entries_own. apply fst_omap_own. intros k. apply elem_of_own_keys.
Qed.

Lemma NoDup_fst_entries h d : NoDup (Dict.entries h d).*1.
Proof. rewrite fst_entries. apply NoDup_own_keys. Qed.

(** On a Dict whose prototype was not replaced, [for...in] visits the
    entries. *)
Lemma for_in_entries_entries h d :
  proto (deref h d) = ObjectPrototype ->
  for_in_entries (deref h d) = Dict.entries h d.
Proof.
  intros Hp. unfold for_in_entries, Dict.entries, Dict.keys, Pair.
  by rewrite for_in_object_prototype.
Qed.

Lemma entries_congruence h h' d d' :
  deref h' d' = deref h d -> Dict.entries h' d' = Dict.entries h d.
Proof. intros Heq. unfold Dict.entries, Dict.keys. by rewrite Heq. Qed.

Lemma get_lookup h d k :
  Dict.get h d k = match props (deref h d) !! k with
                   | Some v => Something v
                   | None => Nothing
                   end.
Proof.
  unfold Dict.get, Dict.has.
  destruct (props (deref h d) !! k) as [v|] eqn:Hk.
  - rewrite (proj2 (has_own_true _ _)) by (by eexists).
    by rewrite (prop_read_own _ _ _ Hk).
  - by rewrite (proj2 (has_own_false _ _)).
Qed.

Lemma get_Something h d k v :
  Dict.get h d k = Something v <-> props (deref h d) !! k = Some v.
Proof.
  rewrite get_lookup. destruct (props (deref h d) !! k); split; congruence.
Qed.

Lemma get_Nothing h d k :
  Dict.get h d k = Nothing <-> props (deref h d) !! k = None.
Proof.
  rewrite get_lookup. destruct (props (deref h d) !! k); split; congruence.
Qed.

Lemma has_get h d k : Dict.has h d k = false <-> Dict.get h d k = Nothing.
Proof. unfold Dict.has. by rewrite has_own_false, get_Nothing. Qed.

Lemma has_true_get h d k :
  Dict.has h d k = true <-> exists v, Dict.get h d k = Something v.
Proof.
  unfold Dict.has. rewrite has_own_true. unfold is_Some.
  split; intros [v Hv]; exists v; by apply get_Something.
Qed.

Lemma get_congruence h h' d d' k :
  deref h' d' = deref h d -> Dict.get h' d' k = Dict.get h d k.
Proof. intros Heq. by rewrite !get_lookup, Heq. Qed.

Lemma get_alloc_old h o d k :
  d < length h -> Dict.get (h ++ [o]) d k = Dict.get h d k.
Proof. intros Hd. apply get_congruence. by apply deref_alloc_old. Qed.

Lemma get_prefix h h' d k :
  h `prefix_of` h' -> d < length h -> Dict.get h' d k = Dict.get h d k.
Proof. intros Hp Hd. apply get_congruence. by apply deref_prefix. Qed.

(** [for...in] visits no key twice. *)
Lemma NoDup_for_in o : NoDup (for_in o).
Proof.
  unfold for_in. apply NoDup_app. split; [apply NoDup_own_keys|]. split.
  - intros k Hown Hinh. apply elem_of_own_keys in Hown as [v Hv].
    apply list_elem_of_filter in Hinh as [Hnone _]. simpl in Hnone. congruence.
  - apply NoDup_filter, first_occurrences_NoDup.
Qed.

Lemma fst_omap_sublist (f : string -> option V) (ks : list string) :
  (omap (fun key => pair key <$> f key) ks).*1 `sublist_of` ks.
Proof.
  induction ks as [|k ks IH]; [done|]. simpl.
  destruct (f k); simpl; [by apply sublist_skip|by apply sublist_cons].
Qed.

Lemma NoDup_fst_for_in_entries o : NoDup (for_in_entries o).*1.
Proof.
  apply (sublist_NoDup _ (for_in o)); [apply NoDup_for_in|apply fst_omap_sublist].
Qed.

Lemma elem_of_for_in_entries o k v :
  (k, v) ∈ for_in_entries o <-> k ∈ for_in o /\ prop_read o k = Some v.
Proof.
  unfold for_in_entries. rewrite list_elem_of_omap. split.
  - intros (k' & Hk' & Hv). destruct (prop_read o k') as [w|] eqn:Hw; [|done].
    simpl in Hv. injection Hv as -> ->. done.
  - intros [Hk Hv]. exists k. split; [done|]. by rewrite Hv.
Qed.

(** Own properties are visited. *)
Lemma own_is_visited o k v : props o !! k = Some v -> (k, v) ∈ for_in_entries o.
Proof.
  intros Hv. apply elem_of_for_in_entries. split.
  - unfold for_in. apply elem_of_app. left. apply elem_of_own_keys. by eexists.
  - by apply prop_read_own.
Qed.

(** The copy [Dict(dict)] gets an own property for each property that
    [for...in] visits, [__proto__] apart, and no other. *)
Lemma Dict_object_visited h d k w :
  (k, w) ∈ for_in_entries (deref h d) -> k <> proto_key ->
  props (Dict.Dict_object h (Dict.OfDict d)) !! k = Some w.
Proof.
  intros Hin Hne. rewrite Dict_object_dict.
  apply assign_all_in; [apply NoDup_fst_for_in_entries|done|done].
Qed.

Lemma Dict_object_not_visited h d k :
  k ∉ (for_in_entries (deref h d)).*1 ->
  props (Dict.Dict_object h (Dict.OfDict d)) !! k = None.
Proof. intros Hk. rewrite Dict_object_dict. by rewrite assign_all_notin. Qed.

Lemma Dict_object_own h d k v :
  props (deref h d) !! k = Some v -> k <> proto_key ->
  props (Dict.Dict_object h (Dict.OfDict d)) !! k = Some v.
Proof. intros Hv Hne. apply Dict_object_visited; [|done]. by apply own_is_visited. Qed.

(** The copy made of a plain object has the same own properties, and is
    plain. *)
Lemma Dict_object_plain h d :
  plain (deref h d) ->
  props (Dict.Dict_object h (Dict.OfDict d)) = props (deref h d)
  /\ plain (Dict.Dict_object h (Dict.OfDict d)).
Proof.
  intros [Hp Hk]. rewrite Dict_object_dict, for_in_entries_entries by done.
  assert (Hnotin : proto_key ∉ (Dict.entries h d).*1).
  { rewrite fst_entries. unfold Dict.keys. rewrite elem_of_own_keys, Hk.
    by intros [? ?]. }
  split; [|split].
  - apply map_eq. intros k.
    destruct (props (deref h d) !! k) as [v|] eqn:Hv.
    + apply assign_all_in; [apply NoDup_fst_entries|by apply elem_of_entries|].
      intros ->. congruence.
    + rewrite assign_all_notin; [done|].
      rewrite fst_entries. unfold Dict.keys. rewrite elem_of_own_keys, Hv.
      by intros [? ?].
  - by rewrite assign_all_proto.
  - by apply assign_all_no_proto.
Qed.

Lemma set_unchanged h d k v :
  read_equals (deref h d) k v = true -> Dict.set h d k v = (d, h).
Proof. intros Heq. unfold Dict.set. by rewrite Heq. Qed.

Lemma set_changed h d k v :
  read_equals (deref h d) k v = false ->
  Dict.set h d k v
  = (length h, h ++ [obj_set (Dict.Dict_object h (Dict.OfDict d)) k v]).
Proof.
  intros Heq. unfold Dict.set, Dict.Dict, alloc. rewrite Heq.
  by rewrite deref_alloc_new, store_alloc.
Qed.

Lemma remove_absent h d k : Dict.has h d k = false -> Dict.remove h d k = (d, h).
Proof. intros Hk. unfold Dict.remove. by rewrite Hk. Qed.

Lemma remove_present h d k :
  Dict.has h d k = true ->
  Dict.remove h d k
  = (length h, h ++ [obj_delete (Dict.Dict_object h (Dict.OfDict d)) k]).
Proof.
  intros Hk. unfold Dict.remove, Dict.Dict, alloc. rewrite Hk. simpl.
  by rewrite deref_alloc_new, store_alloc.
Qed.

(** What [dict[key] === value] means on an object that owns [key], and on
    a plain object that does not. *)
Lemma read_equals_own o k v w :
  props o !! k = Some w -> read_equals o k v = strict_equal w v.
Proof. intros Hk. unfold read_equals. by rewrite (prop_read_own _ _ _ Hk). Qed.

Lemma read_equals_plain o k v :
  proto o = ObjectPrototype -> props o !! k = None ->
  read_equals o k v = on_object_prototype k v.
Proof.
  intros Hp Hk. unfold read_equals, on_object_prototype.
  by rewrite prop_read_plain.
Qed.

(** The result of [set] is the argument or a newly allocated object. *)
Lemma set_reference h d k v :
  (Dict.set h d k v).1 = d \/ (Dict.set h d k v).1 = length h.
Proof.
  destruct (read_equals (deref h d) k v) eqn:Heq.
  - left. by rewrite set_unchanged.
  - right. by rewrite set_changed.
Qed.

Lemma set_extends h d k v : h `prefix_of` (Dict.set h d k v).2.
Proof.
  destruct (read_equals (deref h d) k v) eqn:Heq.
  - by rewrite set_unchanged.
  - rewrite set_changed by done. by apply prefix_app_r.
Qed.

Lemma set_allocated h d k v :
  d < length h -> (Dict.set h d k v).1 < length (Dict.set h d k v).2.
Proof.
  intros Hd. destruct (read_equals (deref h d) k v) eqn:Heq.
  - by rewrite set_unchanged.
  - rewrite set_changed by done. simpl. rewrite length_app. simpl. lia.
Qed.

Lemma remove_extends h d k : h `prefix_of` (Dict.remove h d k).2.
Proof.
  destruct (Dict.has h d k) eqn:Hk.
  - rewrite remove_present by done. by apply prefix_app_r.
  - by rewrite remove_absent.
Qed.

(** The own properties after [set] at a key other than [__proto__] on a
    plain Dict: the entry is stored unless the value is found on
    [Object.prototype] under a key the Dict does not own. *)
Lemma props_set_plain h d k v :
  plain (deref h d) -> k <> proto_key ->
  let r := Dict.set h d k v in
  plain (deref r.2 r.1)
  /\ props (deref r.2 r.1)
     = if negb (Dict.has h d k) && on_object_prototype k v
       then props (deref h d)
       else <[k:=v]> (props (deref h d)).
Proof.
  intros Hpl Hne. pose proof Hpl as [Hp Hk]. simpl.
  destruct (read_equals (deref h d) k v) eqn:Heq.
  - rewrite set_unchanged by done. simpl. split; [done|].
    unfold Dict.has. destruct (props (deref h d) !! k) as [w|] eqn:Hw.
    + rewrite (proj2 (has_own_true _ _)) by (by eexists). simpl.
      rewrite (read_equals_own _ _ _ _ Hw) in Heq.
      apply strict_equal_eq in Heq as ->. by rewrite insert_id.
    + rewrite (proj2 (has_own_false _ _)) by done. simpl.
      rewrite read_equals_plain in Heq by done. by rewrite Heq.
  - rewrite set_changed by done. cbn [fst snd]. rewrite deref_alloc_new.
    destruct (Dict_object_plain h d Hpl) as [Hprops [Hp' Hk']].
    split.
    + split; [by rewrite proto_obj_set_ne|by apply obj_set_keeps_no_proto].
    + rewrite props_obj_set_ne by done. rewrite Hprops.
      unfold Dict.has. destruct (props (deref h d) !! k) as [w|] eqn:Hw.
      * by rewrite (proj2 (has_own_true _ _)) by (by eexists).
      * rewrite (proj2 (has_own_false _ _)) by done. simpl.
        rewrite read_equals_plain in Heq by done. by rewrite Heq.
Qed.

(** [set] at the key [__proto__] leaves the own properties of a Dict that
    does not own that key as they are, whatever the prototype. *)
Lemma props_set_proto_key h d v :
  props (deref h d) !! proto_key = None ->
  let r := Dict.set h d proto_key v in
  props (deref r.2 r.1) !! proto_key = None
  /\ (proto (deref h d) = ObjectPrototype ->
      props (deref r.2 r.1) = props (deref h d)).
Proof.
  intros Hk. simpl.
  destruct (read_equals (deref h d) proto_key v) eqn:Heq.
  - rewrite set_unchanged by done. done.
  - rewrite set_changed by done. cbn [fst snd]. rewrite deref_alloc_new.
    pose proof (Dict_object_no_proto h (Dict.OfDict d)) as Hk'.
    rewrite props_obj_set_proto by done. split; [done|].
    intros Hp. by apply Dict_object_plain.
Qed.

(** The own properties after [remove] on a plain Dict. *)
Lemma props_remove_plain h d k :
  plain (deref h d) ->
  let r := Dict.remove h d k in
  plain (deref r.2 r.1) /\ props (deref r.2 r.1) = delete k (props (deref h d)).
Proof.
  intros Hpl. simpl. destruct (Dict.has h d k) eqn:Hk.
  - rewrite remove_present by done. cbn [fst snd]. rewrite deref_alloc_new.
    destruct (Dict_object_plain h d Hpl) as [Hprops [Hp' Hk']].
    rewrite props_obj_delete, Hprops. split; [|done].
    split; [done|]. simpl. rewrite lookup_delete_None. by right.
  - rewrite remove_absent by done. simpl. split; [done|].
    apply has_own_false in Hk. by rewrite delete_id.
Qed.

End DictFacts.

(** ** The loops of [filter], [map] and [merge] *)

Section DictLoops.
Context {V : Type} `{JsValue V}.
Implicit Types (o : object V) (h : heap V) (d c : loc) (k key : string) (v : V).
Implicit Types (l : list (string * V)).

Lemma filter_loop_spec (p : V -> string -> bool) o :
  Dict.filter_loop p o
  = (assign_all (base.filter (fun e => p e.2 e.1 = true) (for_in_entries o)) obj_empty,
     existsb (fun e => negb (p e.2 e.1)) (for_in_entries o)).
Proof.
  unfold Dict.filter_loop. generalize (for_in_entries o). intros l.
  assert (Hgen : forall (acc : object V) b,
             fold_left
               (fun (st : object V * bool) (entry : string * V) =>
                  if p entry.2 entry.1
                  then (obj_set st.1 entry.1 entry.2, st.2)
                  else (st.1, true)) l (acc, b)
             = (assign_all (base.filter (fun e => p e.2 e.1 = true) l) acc,
                b || existsb (fun e => negb (p e.2 e.1)) l)).
  { induction l as [|[k v] l IH]; intros acc b; simpl.
    - by rewrite orb_false_r.
    - rewrite filter_cons. simpl. destruct (p v k) eqn:Hp; simpl.
      + by rewrite IH.
      + rewrite IH. by rewrite orb_true_r. }
  apply Hgen.
Qed.

Lemma filter_unfold h d (p : V -> string -> bool) :
  Dict.filter h d p
  = (if (Dict.filter_loop p (deref h d)).2 then length h else d,
     h ++ [(Dict.filter_loop p (deref h d)).1]).
Proof.
  unfold Dict.filter, alloc.
  destruct (Dict.filter_loop p (deref h d)) as [filled any].
  by rewrite store_alloc.
Qed.

Lemma map_loop_spec (fn : V -> string -> V) o :
  Dict.map_loop fn o
  = (assign_all ((fun e => (e.1, fn e.2 e.1)) <$> for_in_entries o) obj_empty,
     existsb (fun e => negb (strict_equal (fn e.2 e.1) e.2)) (for_in_entries o)).
Proof.
  unfold Dict.map_loop. generalize (for_in_entries o). intros l.
  assert (Hgen : forall (acc : object V) b,
             fold_left
               (fun (st : object V * bool) (entry : string * V) =>
                  let next := fn entry.2 entry.1 in
                  (obj_set st.1 entry.1 next,
                   if negb (strict_equal next entry.2) then true else st.2))
               l (acc, b)
             = (assign_all ((fun e => (e.1, fn e.2 e.1)) <$> l) acc,
                b || existsb (fun e => negb (strict_equal (fn e.2 e.1) e.2)) l)).
  { induction l as [|[k v] l IH]; intros acc b; simpl.
    - by rewrite orb_false_r.
    - rewrite IH. f_equal.
      destruct (strict_equal (fn v k) v); simpl; [done|].
      by rewrite orb_true_r. }
  apply Hgen.
Qed.

Lemma map_unfold h d (fn : V -> string -> V) :
  Dict.map h d fn
  = (if (Dict.map_loop fn (deref h d)).2 then length h else d,
     h ++ [(Dict.map_loop fn (deref h d)).1]).
Proof.
  unfold Dict.map, alloc.
  destruct (Dict.map_loop fn (deref h d)) as [filled any].
  by rewrite store_alloc.
Qed.

Lemma filter_extends h d p : h `prefix_of` (Dict.filter h d p).2.
Proof. rewrite filter_unfold. by apply prefix_app_r. Qed.

Lemma map_extends h d fn : h `prefix_of` (Dict.map h d fn).2.
Proof. rewrite map_unfold. by apply prefix_app_r. Qed.

(** The object that the loop of [filter] fills, for a plain Dict. *)
Lemma props_filter_loop h d (p : V -> string -> bool) k :
  plain (deref h d) ->
  props (Dict.filter_loop p (deref h d)).1 !! k
  = match props (deref h d) !! k with
    | Some v => if p v k then Some v else None
    | None => None
    end.
Proof.
  intros [Hp Hk]. rewrite filter_loop_spec. cbn [fst].
  rewrite for_in_entries_entries by done.
  destruct (props (deref h d) !! k) as [v|] eqn:Hv.
  - destruct (p v k) eqn:Hpv.
    + apply assign_all_in.
      * apply (sublist_NoDup _ (Dict.entries h d).*1);
          [apply NoDup_fst_entries|]. apply fmap_sublist, sublist_filter.
      * apply list_elem_of_filter. split; [done|]. by apply elem_of_entries.
      * intros ->. congruence.
    + rewrite assign_all_notin; [done|].
      intros Hin. apply list_elem_of_fmap in Hin as ([k' v'] & -> & Hin).
      apply list_elem_of_filter in Hin as [Hpv' Hin].
      apply elem_of_entries in Hin. simpl in *. congruence.
  - rewrite assign_all_notin; [done|].
    intros Hin. apply list_elem_of_fmap in Hin as ([k' v'] & -> & Hin).
    apply list_elem_of_filter in Hin as [_ Hin].
    apply elem_of_entries in Hin. simpl in *. congruence.
Qed.

Lemma filter_loop_flag h d (p : V -> string -> bool) :
  proto (deref h d) = ObjectPrototype ->
  (Dict.filter_loop p (deref h d)).2 = negb (Dict.every h d p).
Proof.
  intros Hp. rewrite filter_loop_spec. cbn [snd].
  rewrite for_in_entries_entries by done. unfold Dict.every.
  generalize (Dict.entries h d). intros l.
  induction l as [|[k v] l IH]; [done|]. simpl. rewrite IH.
  unfold second, first. simpl. by rewrite negb_andb.
Qed.

(** The object that the loop of [map] fills, for a plain Dict. *)
Lemma props_map_loop h d (fn : V -> string -> V) k :
  plain (deref h d) ->
  props (Dict.map_loop fn (deref h d)).1 !! k
  = (fun v => fn v k) <$> props (deref h d) !! k.
Proof.
  intros [Hp Hk]. rewrite map_loop_spec. cbn [fst].
  rewrite for_in_entries_entries by done.
  assert (Hfst : ((fun e : string * V => (e.1, fn e.2 e.1)) <$> Dict.entries h d).*1
                 = (Dict.entries h d).*1).
  { rewrite <- list_fmap_compose. by apply list_fmap_ext. }
  destruct (props (deref h d) !! k) as [v|] eqn:Hv; simpl.
  - apply assign_all_in.
    + rewrite Hfst. apply NoDup_fst_entries.
    + apply list_elem_of_fmap. exists (k, v). split; [done|].
      by apply elem_of_entries.
    + intros ->. congruence.
  - rewrite assign_all_notin; [done|]. rewrite Hfst, fst_entries.
    unfold Dict.keys. rewrite elem_of_own_keys, Hv. by intros [? ?].
Qed.

Lemma map_loop_flag h d (fn : V -> string -> V) :
  proto (deref h d) = ObjectPrototype ->
  (Dict.map_loop fn (deref h d)).2 = false
  <-> forall k v, Dict.get h d k = Something v -> strict_equal (fn v k) v = true.
Proof.
  intros Hp. rewrite map_loop_spec. cbn [snd].
  rewrite for_in_entries_entries by done.
  rewrite <- not_true_iff_false, existsb_exists. split.
  - intros Hnone k v Hk. apply get_Something, elem_of_entries in Hk.
    destruct (strict_equal (fn v k) v) eqn:Heq; [done|].
    destruct Hnone. exists (k, v). split; [by apply list_elem_of_In|].
    simpl. by rewrite Heq.
  - intros Hall ([k v] & Hin & Hneq). apply list_elem_of_In in Hin.
    apply elem_of_entries, get_Something, Hall in Hin. simpl in Hneq.
    by rewrite Hin in Hneq.
Qed.

Lemma forEach_fold {S : Type} h d (fn : V -> string -> S -> S) (s : S) :
  Dict.forEach h d fn s
  = fold_left (fun s e => fn (snd e) (fst e) s) (for_in_entries (deref h d)) s.
Proof. reflexivity. Qed.

Lemma set_all_cons k v l c h :
  set_all ((k, v) :: l) (c, h) = set_all l (Dict.set h c k v).
Proof. reflexivity. Qed.

Lemma merge_all_cons d rest st :
  merge_all (d :: rest) st
  = merge_all rest (set_all (for_in_entries (deref st.2 d)) st).
Proof. reflexivity. Qed.

Lemma merge_two_or_more h d0 d1 rest :
  Dict.merge h (d0 :: d1 :: rest) = merge_all (d1 :: rest) (d0, h).
Proof. reflexivity. Qed.

Lemma set_all_extends l c h :
  let r := set_all l (c, h) in
  h `prefix_of` r.2 /\ (c < length h -> r.1 < length r.2)
  /\ (r.1 = c \/ length h <= r.1).
Proof.
  revert c h. induction l as [|[k v] l IH]; intros c h; simpl.
  { split; [done|]. split; [done|by left]. }
  destruct (IH (Dict.set h c k v).1 (Dict.set h c k v).2) as (Hpre & Hlt & Href).
  rewrite <- surjective_pairing in Hpre, Hlt, Href.
  unfold set_all in *. simpl. split; [|split].
  - etrans; [apply set_extends|exact Hpre].
  - intros Hc. by apply Hlt, set_allocated.
  - pose proof (prefix_length _ _ (set_extends h c k v)) as Hlen.
    destruct Href as [Href|Href]; [|right; lia].
    rewrite Href. destruct (set_reference h c k v) as [->| ->]; [by left|by right].
Qed.

Lemma merge_all_extends rest c h :
  let r := merge_all rest (c, h) in
  h `prefix_of` r.2 /\ (c < length h -> r.1 < length r.2).
Proof.
  revert c h. induction rest as [|d rest IH]; intros c h; [done|].
  rewrite merge_all_cons. cbn [fst snd].
  destruct (set_all_extends (for_in_entries (deref h d)) c h) as (Hp1 & Hlt1 & _).
  set (st1 := set_all _ (c, h)) in *.
  destruct (IH st1.1 st1.2) as (Hp2 & Hlt2).
  rewrite <- surjective_pairing in Hp2, Hlt2. cbn zeta. split.
  - by etrans.
  - intros Hc. by apply Hlt2, Hlt1.
Qed.

(** When the accumulator already reads every entry as strictly equal,
    nothing is allocated and the accumulator is returned. *)
Lemma set_all_same l c h :
  (forall k v, (k, v) ∈ l -> read_equals (deref h c) k v = true) ->
  set_all l (c, h) = (c, h).
Proof.
  induction l as [|[k v] l IH]; intros Hall; [done|].
  rewrite set_all_cons, set_unchanged by (apply Hall; by left).
  apply IH. intros k' v' Hin. apply Hall. by right.
Qed.

Lemma merge_all_same rest c h :
  (forall d k v, d ∈ rest -> (k, v) ∈ for_in_entries (deref h d) ->
                 read_equals (deref h c) k v = true) ->
  merge_all rest (c, h) = (c, h).
Proof.
  induction rest as [|d rest IH]; intros Hall; [done|].
  rewrite merge_all_cons. cbn [fst snd]. rewrite set_all_same.
  - apply IH. intros d' k v Hd'. apply Hall. by right.
  - intros k v Hin. apply (Hall d); [by left|done].
Qed.

(** When some entry is not read as strictly equal on an allocated
    accumulator, the loop returns another reference. *)
Lemma set_all_differs l c h k v :
  c < length h -> (k, v) ∈ l -> read_equals (deref h c) k v = false ->
  (set_all l (c, h)).1 <> c.
Proof.
  revert c h. induction l as [|[k' v'] l IH]; intros c h Hc Hin Hneq.
  { by apply elem_of_nil in Hin. }
  rewrite set_all_cons.
  destruct (read_equals (deref h c) k' v') eqn:Heq.
  - rewrite set_unchanged by done. apply IH; [done| |done].
    apply elem_of_cons in Hin as [Hin|Hin]; [|done]. congruence.
  - rewrite set_changed by done.
    destruct (set_all_extends l (length h)
                (h ++ [obj_set (Dict.Dict_object h (Dict.OfDict c)) k' v']))
      as (_ & _ & Href).
    cbn zeta in Href. rewrite length_app in Href. cbn [length] in Href.
    set (x := (set_all _ _).1) in *. clearbody x. unfold loc in *. lia.
Qed.

(** The inner loop on a plain accumulator, for entries that are not found
    on [Object.prototype]. *)
Lemma set_all_plain l c h :
  plain (deref h c) -> NoDup l.*1 -> proto_key ∉ l.*1 ->
  (forall k v, (k, v) ∈ l -> on_object_prototype k v = false) ->
  let r := set_all l (c, h) in
  plain (deref r.2 r.1)
  /\ props (deref r.2 r.1) = list_to_map l ∪ props (deref h c).
Proof.
  revert c h. induction l as [|[k v] l IH]; intros c h Hpl Hnd Hproto Hord; simpl.
  { split; [done|]. by rewrite (left_id_L ∅ (∪)). }
  simpl in Hnd, Hproto.
  apply NoDup_cons in Hnd as [Hk Hnd].
  apply not_elem_of_cons in Hproto as [Hkp Hproto].
  destruct (props_set_plain h c k v Hpl) as [Hpl1 Hprops1]; [congruence|].
  rewrite (Hord k v) in Hprops1 by (by left). rewrite andb_false_r in Hprops1.
  destruct (IH (Dict.set h c k v).1 (Dict.set h c k v).2) as (Hpl2 & Hprops2);
    [done|done|done| |].
  { intros k' v' Hin. apply Hord. by right. }
  rewrite <- surjective_pairing in Hpl2, Hprops2.
  unfold set_all in *. simpl. split; [done|].
  rewrite Hprops2, Hprops1.
  rewrite <- insert_union_r by by apply not_elem_of_list_to_map_1.
  by rewrite insert_union_l.
Qed.

(** The outer loop on plain arguments allocated in [h0], run in a heap [h]
    that extends [h0]. *)
Lemma merge_all_plain h0 rest c h :
  h0 `prefix_of` h -> plain (deref h c) ->
  Forall (fun d => d < length h0) rest ->
  Forall (fun d => plain (deref h0 d)) rest ->
  (forall d k v, d ∈ rest -> props (deref h0 d) !! k = Some v ->
                 on_object_prototype k v = false) ->
  let r := merge_all rest (c, h) in
  plain (deref r.2 r.1)
  /\ props (deref r.2 r.1)
     = fold_left (fun m d => props (deref h0 d) ∪ m) rest (props (deref h c)).
Proof.
  intros Hpre Hplc Hall Hplain Hord. revert c h Hpre Hplc.
  induction Hall as [|d rest Hd _ IH]; intros c h Hpre Hplc; [done|].
  apply Forall_cons in Hplain as [Hpld Hplain].
  rewrite merge_all_cons. cbn [fst snd].
  rewrite (deref_prefix h0 h d) by done.
  rewrite for_in_entries_entries by apply Hpld.
  destruct (set_all_plain (Dict.entries h0 d) c h) as (Hpl1 & Hprops1); [done| | | |].
  { apply NoDup_fst_entries. }
  { rewrite fst_entries. unfold Dict.keys. rewrite elem_of_own_keys.
    destruct Hpld as [_ Hnone]. rewrite Hnone. by intros [? ?]. }
  { intros k v Hin. apply (Hord d); [by left|]. by apply elem_of_entries. }
  destruct (set_all_extends (Dict.entries h0 d) c h) as (Hp1 & _).
  set (st1 := set_all _ (c, h)) in *.
  destruct (IH Hplain) with (c := st1.1) (h := st1.2) as (Hpl2 & Hprops2).
  { intros d' k v Hd'. apply Hord. by right. }
  { by etrans. }
  { done. }
  rewrite <- surjective_pairing in Hpl2, Hprops2. cbn zeta.
  split; [done|]. rewrite Hprops2, Hprops1. simpl. do 2 f_equal.
  apply map_eq. intros k. apply option_eq. intros v.
  rewrite <- elem_of_list_to_map by apply NoDup_fst_entries.
  apply elem_of_entries.
Qed.

(** Which value a key has after the tables of [ds] were laid over [m], the
    later ones on top. *)
Lemma overlay_rightmost h pre d post k v (m : gmap string V) :
  props (deref h d) !! k = Some v ->
  (forall d', d' ∈ post -> props (deref h d') !! k = None) ->
  fold_left (fun m d => props (deref h d) ∪ m) (pre ++ d :: post) m !! k = Some v.
Proof.
  intros Hd Hpost. rewrite fold_left_app. simpl.
  generalize (fold_left (fun m d => props (deref h d) ∪ m) pre m). intros m'.
  assert (Hm : (props (deref h d) ∪ m') !! k = Some v) by by apply lookup_union_Some_l.
  revert Hm. generalize (props (deref h d) ∪ m'). clear Hd.
  induction post as [|d' post IH]; intros m1 Hm; simpl; [done|].
  apply IH.
  - intros d'' Hin. apply Hpost. by right.
  - rewrite lookup_union_r; [done|]. apply Hpost. by left.
Qed.

Lemma overlay_absent h ds k (m : gmap string V) :
  m !! k = None ->
  (forall d, d ∈ ds -> props (deref h d) !! k = None) ->
  fold_left (fun m d => props (deref h d) ∪ m) ds m !! k = None.
Proof.
  revert m. induction ds as [|d ds IH]; intros m Hm Hds; simpl; [done|].
  apply IH.
  - apply lookup_union_None. split; [|done]. apply Hds. by left.
  - intros d' Hin. apply Hds. by right.
Qed.

Lemma overlay_present h ds k (m : gmap string V) :
  is_Some (m !! k) \/ (exists d, d ∈ ds /\ is_Some (props (deref h d) !! k)) ->
  is_Some (fold_left (fun m d => props (deref h d) ∪ m) ds m !! k).
Proof.
  revert m. induction ds as [|d ds IH]; intros m Hk; simpl.
  { destruct Hk as [Hk|(d & Hd & _)]; [done|]. by apply elem_of_nil in Hd. }
  apply IH. destruct Hk as [Hk|(d' & Hd' & Hk)].
  - left. apply lookup_union_is_Some. by right.
  - apply elem_of_cons in Hd' as [->|Hd'].
    + left. apply lookup_union_is_Some. by left.
    + right. eauto.
Qed.

Lemma merge_props h d0 d1 rest :
  Forall (fun d => d < length h) (d0 :: d1 :: rest) ->
  Forall (fun d => plain (deref h d)) (d0 :: d1 :: rest) ->
  (forall d k v, d ∈ d1 :: rest -> Dict.get h d k = Something v ->
                 on_object_prototype k v = false) ->
  let r := Dict.merge h (d0 :: d1 :: rest) in
  plain (deref r.2 r.1)
  /\ props (deref r.2 r.1)
     = fold_left (fun m d => props (deref h d) ∪ m) (d0 :: d1 :: rest) ∅.
Proof.
  intros Hall Hplain Hord r. apply Forall_cons in Hall as [Hd0 Hall].
  apply Forall_cons in Hplain as [Hpl0 Hplain].
  destruct (merge_all_plain h (d1 :: rest) d0 h) as (Hpl & Hprops); [done..| |].
  { intros d k v Hd Hk. apply (Hord d); [done|]. by apply get_Something. }
  unfold r. rewrite merge_two_or_more. split; [done|]. rewrite Hprops.
  change (fold_left ?f (d0 :: ?l) ∅) with (fold_left f l (f ∅ d0)).
  cbn beta. by rewrite (right_id_L ∅ (∪)).
Qed.

End DictLoops.

(** ** More lemmas on [entries], [set] and [remove] *)

Section DictEntries.
Context {V : Type} `{JsValue V}.
Implicit Types (o : object V) (h : heap V) (d : loc) (k key : string) (v : V).

Lemma entries_map_to_list h d :
  Dict.entries h d ≡ₚ map_to_list (props (deref h d)).
Proof.
  apply NoDup_Permutation.
  - apply (NoDup_fmap_1 fst), NoDup_fst_entries.
  - apply NoDup_map_to_list.
  - intros [k v]. by rewrite elem_of_entries, elem_of_map_to_list.
Qed.

Lemma entries_props h h' d d' :
  props (deref h' d') = props (deref h d) ->
  Dict.entries h' d' ≡ₚ Dict.entries h d.
Proof. intros Heq. by rewrite !entries_map_to_list, Heq. Qed.

Lemma size_props h d : Dict.size h d = size (props (deref h d)).
Proof.
  unfold Dict.size. rewrite <- fst_entries, length_fmap.
  by rewrite entries_map_to_list, length_map_to_list.
Qed.

Lemma get_props h h' d d' :
  props (deref h' d') = props (deref h d) ->
  forall k, Dict.get h' d' k = Dict.get h d k.
Proof. intros Heq k. by rewrite !get_lookup, Heq. Qed.

(** [get] at a key that [for...in] visits, after an edit that copies. *)
Lemma get_copy_visited h d k k' v w :
  k' <> k -> k' <> proto_key -> (k', w) ∈ for_in_entries (deref h d) ->
  (read_equals (deref h d) k v = false ->
   let s := Dict.set h d k v in Dict.get s.2 s.1 k' = Something w)
  /\ (Dict.has h d k = true ->
      let r := Dict.remove h d k in Dict.get r.2 r.1 k' = Something w).
Proof.
  intros Hne Hproto Hin. split.
  - intros Heq. rewrite set_changed by done. cbn [fst snd]. apply get_Something.
    rewrite deref_alloc_new, lookup_obj_set_ne by done.
    by apply Dict_object_visited.
  - intros Hk. rewrite remove_present by done. cbn [fst snd]. apply get_Something.
    rewrite deref_alloc_new, props_obj_delete, lookup_delete_ne by done.
    by apply Dict_object_visited.
Qed.

(** No copy owns [__proto__]. *)
Lemma get_copy_proto_key h d k v :
  k <> proto_key ->
  (read_equals (deref h d) k v = false ->
   let s := Dict.set h d k v in Dict.get s.2 s.1 proto_key = Nothing)
  /\ (Dict.has h d k = true ->
      let r := Dict.remove h d k in Dict.get r.2 r.1 proto_key = Nothing).
Proof.
  intros Hne. pose proof (Dict_object_no_proto h (Dict.OfDict d)) as Hnone. split.
  - intros Heq. rewrite set_changed by done. cbn [fst snd]. apply get_Nothing.
    rewrite deref_alloc_new. by apply obj_set_keeps_no_proto.
  - intros Hk. rewrite remove_present by done. cbn [fst snd]. apply get_Nothing.
    rewrite deref_alloc_new, props_obj_delete. apply lookup_delete_None. by right.
Qed.

Lemma get_remove_eq h d k :
  let r := Dict.remove h d k in Dict.get r.2 r.1 k = Nothing.
Proof.
  simpl. destruct (Dict.has h d k) eqn:Hk.
  - rewrite remove_present by done. cbn [fst snd]. apply get_Nothing.
    rewrite deref_alloc_new, props_obj_delete. apply lookup_delete_eq.
  - rewrite remove_absent by done. by apply has_get.
Qed.

End DictEntries.

(** ** Claims about the Dict operations *)

Section DictClaims.
Context {V : Type} `{JsValue V}.
Implicit Types (o : object V) (h : heap V) (d : loc) (k key : string) (v : V).


(** C2.  [get(remove(m, k), k)] is [Nothing()] for every mapping and key,
    and when [k] is absent [remove(m, k)] returns [m] itself, without
    allocating anything. *)
Theorem remove_then_get h d k :
  (let r := Dict.remove h d k in Dict.get r.2 r.1 k = Nothing) /\
  (Dict.has h d k = false -> Dict.remove h d k = (d, h)).
Proof.
  split.
  - apply get_remove_eq.
  - apply remove_absent.
Qed.

(** C3 (fails at one key).  The contract says that an edit which leaves
    the content as it is returns the mapping it was given.
    [set(m, "__proto__", v)] leaves the content of a plain [m] as it is:
    the result has the entries of [m].  Yet, unless [v] is
    [Object.prototype] itself, it is not [m] but a newly allocated copy. *)
Theorem set_proto_key_allocates_a_copy h d v :
  d < length h -> plain (deref h d) ->
  on_object_prototype proto_key v = false ->
  let r := Dict.set h d proto_key v in
  r.1 <> d /\ r.1 = length h /\
  (forall k, Dict.get r.2 r.1 k = Dict.get h d k) /\
  Dict.entries r.2 r.1 ≡ₚ Dict.entries h d.
Proof.
  intros Hd Hpl Hv r. pose proof Hpl as [Hp Hk].
  assert (Heq : read_equals (deref h d) proto_key v = false).
  { by rewrite read_equals_plain. }
  assert (Hprops : props (deref r.2 r.1) = props (deref h d)).
  { by apply props_set_proto_key. }
  unfold r in *. rewrite set_changed in * by done. cbn [fst snd] in *.
  split; [lia|]. split; [done|]. split.
  - by apply get_props.
  - by apply entries_props.
Qed.

(** C7 (fails for a mapping that owns the key [__proto__]).  For an object
    such as [JSON.parse('{"__proto__":1,"a":2}')], [entries] lists the
    pair of [__proto__], but the assignment [map[key] = val] of the
    constructor cannot create that property: the rebuilt mapping has the
    other entries and lacks this one. *)
Theorem round_trip_loses_proto_key h d v :
  Dict.get h d proto_key = Something v ->
  let r := Dict.Dict h (Dict.OfPairs (Dict.entries h d)) in
  (proto_key, v) ∈ Dict.entries h d /\
  Dict.get r.2 r.1 proto_key = Nothing /\
  ((proto_key, v) ∉ Dict.entries r.2 r.1) /\
  (forall k, k <> proto_key -> Dict.get r.2 r.1 k = Dict.get h d k).
Proof.
  intros Hv r. apply get_Something in Hv.
  assert (Hr : deref r.2 r.1 = assign_all (Dict.entries h d) obj_empty).
  { unfold r, Dict.Dict, alloc. cbn [fst snd]. by rewrite deref_alloc_new. }
  assert (Hnone : props (deref r.2 r.1) !! proto_key = None).
  { rewrite Hr. by apply assign_all_no_proto. }
  split; [by apply elem_of_entries|]. split; [by apply get_Nothing|]. split.
  - rewrite elem_of_entries. congruence.
  - intros k Hk. rewrite !get_lookup, Hr.
    destruct (props (deref h d) !! k) as [w|] eqn:Hw.
    + rewrite (assign_all_in _ _ k w); [done|apply NoDup_fst_entries| |done].
      by apply elem_of_entries.
    + rewrite assign_all_notin; [done|]. rewrite fst_entries.
      unfold Dict.keys. rewrite elem_of_own_keys, Hw. by intros [? ?].
Qed.

(** C10 (fails for mappings that are not plain).  An edit that copies
    goes through [for...in] and bare assignment, so the copy differs from
    the mapping at keys other than the edited one.  A property that the
    mapping inherits from a replaced prototype, and so does not hold as an
    entry, is visited by [for...in] and becomes an entry of the copy; an
    entry at the key [__proto__] is not copied. *)
Theorem edit_changes_other_keys h d k k' v :
  k' <> k ->
  let s := Dict.set h d k v in
  let r := Dict.remove h d k in
  (forall w, k' <> proto_key -> (k', w) ∈ for_in_entries (deref h d) ->
     (read_equals (deref h d) k v = false -> Dict.get s.2 s.1 k' = Something w) /\
     (Dict.has h d k = true -> Dict.get r.2 r.1 k' = Something w)) /\
  (k' = proto_key ->
     (read_equals (deref h d) k v = false -> Dict.get s.2 s.1 k' = Nothing) /\
     (Dict.has h d k = true -> Dict.get r.2 r.1 k' = Nothing)).
Proof.
  intros Hne s r. split.
  - intros w Hproto Hin. by apply get_copy_visited.
  - intros ->. apply get_copy_proto_key. congruence.
Qed.

(** C4 (fails for a value that [Object.prototype] holds).  [merge] adds an
    entry with [set], which compares [copy[key] === value] without asking
    whether [copy] owns the key.  When the accumulator does not own the
    key and the value is the one found on [Object.prototype], as in
    [merge(Dict(), Dict([["constructor", Object]]))], the entry is taken
    for present: the first argument is returned, and the result lacks an
    entry of the second argument. *)
Theorem merge_loses_prototype_member h d0 d1 k v :
  plain (deref h d0) -> plain (deref h d1) ->
  Dict.entries h d1 = [(k, v)] ->
  Dict.get h d0 k = Nothing ->
  on_object_prototype k v = true ->
  let r := Dict.merge h [d0; d1] in
  Dict.get h d1 k = Something v /\ r = (d0, h) /\ Dict.get r.2 r.1 k = Nothing.
Proof.
  intros Hpl0 Hpl1 Hentries Hnone Hv r.
  assert (Hr : r = (d0, h)).
  { unfold r. rewrite merge_two_or_more. apply merge_all_same.
    intros d k' v' Hd Hin. apply list_elem_of_singleton in Hd as ->.
    rewrite for_in_entries_entries, Hentries in Hin by apply Hpl1.
    apply list_elem_of_singleton in Hin. injection Hin as -> ->.
    rewrite read_equals_plain; [done|apply Hpl0|by apply get_Nothing]. }
  split; [|split; [done|by rewrite Hr]].
  apply get_Something, elem_of_entries. rewrite Hentries. by left.
Qed.

End DictClaims.

(** ** The claims, where they hold *)

Section DictContracts.
Context {V : Type} `{JsValue V}.
Implicit Types (o : object V) (h : heap V) (d : loc) (k key : string) (v : V).

(** X24.  [get(set(m, k, v), k)] is [Something(v)] for every key other than
    [__proto__], provided [m] owns [k] or does not read [v] at [k] through
    its prototype chain. *)
Theorem get_after_set h d k v :
  k <> proto_key ->
  Dict.has h d k = true \/ read_equals (deref h d) k v = false ->
  let r := Dict.set h d k v in Dict.get r.2 r.1 k = Something v.
Proof.
  intros Hne Hk. simpl. destruct (read_equals (deref h d) k v) eqn:Heq.
  - rewrite set_unchanged by done. simpl.
    destruct Hk as [Hk|Hk]; [|done].
    apply has_own_true in Hk as [w Hw]. apply get_Something.
    rewrite (read_equals_own _ _ _ _ Hw) in Heq.
    by apply strict_equal_eq in Heq as ->.
  - rewrite set_changed by done. cbn [fst snd]. apply get_Something.
    rewrite deref_alloc_new. by apply lookup_obj_set_eq.
Qed.

(** X25.  Identity preservation: [filter(m, p)] with [p] true of every
    entry of a plain mapping returns [m] itself; [set(m, k, v)] where [m]
    holds at [k] a value strictly equal to [v] returns [m] itself and
    allocates nothing; and so does [remove(m, k)] where [m] has no entry at
    [k]. *)
Theorem identity_preserved h d :
  (forall p : V -> string -> bool,
     proto (deref h d) = ObjectPrototype ->
     (forall k v, Dict.get h d k = Something v -> p v k = true) ->
     (Dict.filter h d p).1 = d) /\
  (forall k v w, Dict.get h d k = Something w -> strict_equal w v = true ->
                 Dict.set h d k v = (d, h)) /\
  (forall k, Dict.get h d k = Nothing -> Dict.remove h d k = (d, h)).
Proof.
  split; [|split].
  - intros p Hp Hall. rewrite filter_unfold, filter_loop_flag by done.
    cbn [fst]. replace (Dict.every h d p) with true; [done|].
    symmetry. unfold Dict.every. apply forallb_forall. intros [k v] Hin.
    apply Hall, get_Something, elem_of_entries. by apply list_elem_of_In.
  - intros k v w Hk Heq. apply set_unchanged. apply get_Something in Hk.
    by rewrite (read_equals_own _ _ _ _ Hk).
  - intros k Hk. apply remove_absent. by apply has_get.
Qed.

(** X28.  Round trip: for a mapping that does not own the key [__proto__],
    the mapping built by [Dict(entries(m))] has the own properties of [m],
    so its entries are those of [m], whatever their order. *)
Theorem entries_round_trip h d :
  Dict.get h d proto_key = Nothing ->
  let r := Dict.Dict h (Dict.OfPairs (Dict.entries h d)) in
  props (deref r.2 r.1) = props (deref h d) /\
  (forall k, Dict.get r.2 r.1 k = Dict.get h d k) /\
  Dict.entries r.2 r.1 ≡ₚ Dict.entries h d.
Proof.
  intros Hnone r. apply get_Nothing in Hnone.
  assert (Hr : deref r.2 r.1 = assign_all (Dict.entries h d) obj_empty).
  { unfold r, Dict.Dict, alloc. cbn [fst snd]. by rewrite deref_alloc_new. }
  assert (Hp : props (deref r.2 r.1) = props (deref h d)).
  { rewrite Hr. apply map_eq. intros k.
    destruct (props (deref h d) !! k) as [w|] eqn:Hw.
    - apply assign_all_in; [apply NoDup_fst_entries|by apply elem_of_entries|].
      intros ->. congruence.
    - rewrite assign_all_notin; [done|]. rewrite fst_entries.
      unfold Dict.keys. rewrite elem_of_own_keys, Hw. by intros [? ?]. }
  split; [done|]. split; [by apply get_props|by apply entries_props].
Qed.

(** X29.  Frame: on a plain mapping, editing key [k] with [set] or
    [remove] leaves what [get] observes at any other key [k'] as it was. *)
Theorem edit_frame h d k k' v :
  plain (deref h d) -> k' <> k ->
  (let r := Dict.set h d k v in Dict.get r.2 r.1 k' = Dict.get h d k') /\
  (let r := Dict.remove h d k in Dict.get r.2 r.1 k' = Dict.get h d k').
Proof.
  intros Hpl Hne. split.
  - cbn zeta. rewrite !get_lookup. destruct (decide (k = proto_key)) as [->|Hk].
    + destruct Hpl as [Hp Hnone].
      destruct (props_set_proto_key h d v Hnone) as [_ Hprops].
      by rewrite Hprops.
    + destruct (props_set_plain h d k v Hpl Hk) as [_ Hprops]. rewrite Hprops.
      destruct (negb (Dict.has h d k) && on_object_prototype k v); [done|].
      by rewrite lookup_insert_ne.
  - cbn zeta. rewrite !get_lookup.
    destruct (props_remove_plain h d k Hpl) as [_ Hprops]. rewrite Hprops.
    by rewrite lookup_delete_ne.
Qed.

(** X26.  [merge()] is a new empty mapping; [merge(m)] is [m] itself.  For
    two or more plain mappings, none of whose later entries is a member of
    [Object.prototype] under its key, the result has a value at every key
    that some argument has, namely the value of the rightmost argument
    holding the key, and has no other key.  When every visited entry of the
    later arguments is read as strictly equal on the first, the first
    argument itself is returned and nothing is allocated. *)
Theorem merge_spec h d0 d1 rest :
  Forall (fun d => d < length h) (d0 :: d1 :: rest) ->
  Forall (fun d => plain (deref h d)) (d0 :: d1 :: rest) ->
  (forall d k v, d ∈ d1 :: rest -> Dict.get h d k = Something v ->
                 on_object_prototype k v = false) ->
  (let r := Dict.merge h [] in r.1 = length h /\ Dict.entries r.2 r.1 = []) /\
  Dict.merge h [d0] = (d0, h) /\
  (let dicts := d0 :: d1 :: rest in
   let r := Dict.merge h dicts in
   (forall d k v, d ∈ dicts -> Dict.get h d k = Something v ->
                  exists v', Dict.get r.2 r.1 k = Something v') /\
   (forall pre d post k v,
       dicts = pre ++ d :: post ->
       Dict.get h d k = Something v ->
       (forall d', d' ∈ post -> Dict.get h d' k = Nothing) ->
       Dict.get r.2 r.1 k = Something v) /\
   (forall k, (forall d, d ∈ dicts -> Dict.get h d k = Nothing) ->
              Dict.get r.2 r.1 k = Nothing) /\
   ((forall d k v, d ∈ d1 :: rest -> Dict.get h d k = Something v ->
                   Dict.get h d0 k = Something v /\ is_nan v = false) ->
    r = (d0, h))).
Proof.
  intros Hall Hplain Hord. split; [|split].
  - cbn zeta. unfold Dict.merge, alloc. cbn [fst snd]. split; [done|].
    unfold Dict.entries, Dict.keys. rewrite deref_alloc_new. done.
  - reflexivity.
  - intros dicts r.
    destruct (merge_props h d0 d1 rest Hall Hplain Hord) as [_ Hprops].
    fold dicts r in Hprops.
    split; [|split; [|split]].
    + intros d k v Hd Hk. apply get_Something in Hk.
      destruct (overlay_present h dicts k ∅) as [v' Hv'].
      { right. exists d. split; [done|]. by eexists. }
      exists v'. apply get_Something. by rewrite Hprops.
    + intros pre d post k v Hdicts Hk Hpost. apply get_Something.
      rewrite Hprops, Hdicts. apply overlay_rightmost.
      * by apply get_Something.
      * intros d' Hd'. by apply get_Nothing, Hpost.
    + intros k Hk. apply get_Nothing. rewrite Hprops.
      apply overlay_absent; [done|].
      intros d Hd. by apply get_Nothing, Hk.
    + intros Hin. unfold r, dicts. rewrite merge_two_or_more.
      apply merge_all_same. intros d k v Hd Hvisit.
      apply Forall_cons in Hplain as [_ Hplain].
      assert (Hpld : plain (deref h d)).
      { by apply (proj1 (Forall_forall _ _) Hplain). }
      rewrite for_in_entries_entries in Hvisit by apply Hpld.
      apply elem_of_entries, get_Something in Hvisit.
      destruct (Hin d k v Hd Hvisit) as [Hk0 Hnan].
      apply get_Something in Hk0. rewrite (read_equals_own _ _ _ _ Hk0).
      apply strict_equal_true. done.
Qed.

End DictContracts.

(** ** The constructor, and what edits leave alone *)

Section DictConstructor.
Context {V : Type} `{JsValue V}.
Implicit Types (o : object V) (h : heap V) (d : loc) (k key : string) (v : V).

(** X1.  [Dict(pairs)] is a new object in which, for every key but
    [__proto__], the last pair with that key decides the value, and which
    has no entry at a key that no pair has. *)
Theorem Dict_of_pairs_last_wins h pairs :
  let r := Dict.Dict h (Dict.OfPairs pairs) in
  r.1 = length h /\
  (forall pre k v post,
      pairs = pre ++ (k, v) :: post -> k ∉ post.*1 -> k ≠ proto_key ->
      Dict.get r.2 r.1 k = Something v) /\
  (forall k, k ∉ pairs.*1 -> Dict.get r.2 r.1 k = Nothing).
Proof.
  intros r. unfold r, Dict.Dict, alloc. cbn [fst snd].
  rewrite Dict_object_pairs.
  split; [done|]. split.
  - intros pre k v post -> Hk Hproto. apply get_Something.
    rewrite deref_alloc_new. by apply assign_all_last.
  - intros k Hk. apply get_Nothing. rewrite deref_alloc_new.
    by rewrite assign_all_notin.
Qed.

(** X2.  For a plain mapping, [Dict(dict)] is a reference that was not
    allocated before, to an object with the entries of [dict]; [dict]
    itself is left as it was. *)
Theorem Dict_of_dict_is_a_copy h d :
  d < length h -> plain (deref h d) ->
  let r := Dict.Dict h (Dict.OfDict d) in
  r.1 = length h /\ r.1 <> d /\
  plain (deref r.2 r.1) /\
  Dict.entries r.2 r.1 ≡ₚ Dict.entries h d /\
  (forall k, Dict.get r.2 r.1 k = Dict.get h d k) /\
  (forall k, Dict.get r.2 d k = Dict.get h d k).
Proof.
  intros Hd Hpl r. unfold r, Dict.Dict, alloc. cbn [fst snd].
  destruct (Dict_object_plain h d Hpl) as [Hprops Hpl'].
  split; [done|]. split; [lia|].
  assert (Hnew : props (deref (h ++ [Dict.Dict_object h (Dict.OfDict d)]) (length h))
                 = props (deref h d)).
  { by rewrite deref_alloc_new. }
  split; [by rewrite deref_alloc_new|].
  split; [by apply entries_props|]. split; [by apply get_props|].
  intros k. by apply get_alloc_old.
Qed.

(** X3.  No edit mutates an object: whatever [set], [remove], [filter] or [map]
    is applied to [d], every reference [d'] of the heap, [d] included, has
    afterwards the entries it had before. *)
Theorem edits_do_not_mutate h d d' k' :
  d' < length h ->
  (forall k v, Dict.get (Dict.set h d k v).2 d' k' = Dict.get h d' k') /\
  (forall k, Dict.get (Dict.remove h d k).2 d' k' = Dict.get h d' k') /\
  (forall p, Dict.get (Dict.filter h d p).2 d' k' = Dict.get h d' k') /\
  (forall fn, Dict.get (Dict.map h d fn).2 d' k' = Dict.get h d' k').
Proof.
  intros Hd'. split; [|split; [|split]].
  - intros k v. apply get_prefix; [apply set_extends|done].
  - intros k. apply get_prefix; [apply remove_extends|done].
  - intros p. apply get_prefix; [apply filter_extends|done].
  - intros fn. apply get_prefix; [apply map_extends|done].
Qed.

(** X4.  [merge] mutates none of its arguments, nor any other object of the
    heap. *)
Theorem merge_does_not_mutate h d0 d1 rest d' k' :
  Forall (fun d => d < length h) (d0 :: d1 :: rest) ->
  d' < length h ->
  Dict.get (Dict.merge h (d0 :: d1 :: rest)).2 d' k' = Dict.get h d' k'.
Proof.
  intros Hall Hd'. rewrite merge_two_or_more.
  destruct (merge_all_extends (d1 :: rest) d0 h) as [Hpre _].
  by apply get_prefix.
Qed.

(** X5.  [set] returns the mapping it was given exactly when the read
    [dict[key]] is strictly equal to the value; otherwise it returns a
    reference that was not allocated before.  When the mapping holds the
    key, that is when the held value is the value and is not [NaN]; when a
    plain mapping does not hold the key, that is when the value is the
    member that [Object.prototype] has under the key. *)
Theorem set_same_reference_iff h d k v :
  d < length h ->
  ((Dict.set h d k v).1 = d <-> read_equals (deref h d) k v = true) /\
  ((Dict.set h d k v).1 = d \/ (Dict.set h d k v).1 = length h) /\
  (forall w, Dict.get h d k = Something w ->
     ((Dict.set h d k v).1 = d <-> w = v /\ is_nan v = false)) /\
  (proto (deref h d) = ObjectPrototype -> Dict.get h d k = Nothing ->
     ((Dict.set h d k v).1 = d <-> on_object_prototype k v = true)).
Proof.
  intros Hd.
  assert (Hiff : (Dict.set h d k v).1 = d <-> read_equals (deref h d) k v = true).
  { destruct (read_equals (deref h d) k v) eqn:Heq.
    - by rewrite set_unchanged.
    - rewrite set_changed by done. cbn [fst]. split; [lia|done]. }
  split; [done|]. split; [apply set_reference|]. split.
  - intros w Hw. apply get_Something in Hw.
    rewrite Hiff, (read_equals_own _ _ _ _ Hw), strict_equal_true.
    split; intros [-> Hnan]; done.
  - intros Hp Hnone. apply get_Nothing in Hnone.
    by rewrite Hiff, read_equals_plain.
Qed.

(** X6.  [remove] returns the mapping it was given exactly when the key is
    absent; otherwise it returns a reference that was not allocated
    before. *)
Theorem remove_same_reference_iff h d k :
  d < length h ->
  ((Dict.remove h d k).1 = d <-> Dict.get h d k = Nothing) /\
  ((Dict.remove h d k).1 = d \/ (Dict.remove h d k).1 = length h).
Proof.
  intros Hd. rewrite <- has_get. destruct (Dict.has h d k) eqn:Hk.
  - rewrite remove_present by done. cbn [fst]. split; [|by right].
    split; [lia|done].
  - rewrite remove_absent by done. cbn [fst]. split; [done|by left].
Qed.

End DictConstructor.

(** ** Traversals *)

Section DictTraversals.
Context {V : Type} `{JsValue V}.
Implicit Types (o : object V) (h : heap V) (d : loc) (k key : string) (v : V).

Lemma every_forall h d (p : V -> string -> bool) :
  Dict.every h d p = true
  <-> forall k v, Dict.get h d k = Something v -> p v k = true.
Proof.
  unfold Dict.every. rewrite forallb_forall. split.
  - intros Hall k v Hk. apply get_Something, elem_of_entries in Hk.
    apply (Hall (k, v)). by apply list_elem_of_In.
  - intros Hall [k v] Hin. apply Hall, get_Something, elem_of_entries.
    by apply list_elem_of_In.
Qed.

(** X7.  The entries of [filter(m, p)], for a plain [m], are the entries of
    [m] that pass [p]. *)
Theorem filter_keeps_passing_entries h d p k :
  d < length h -> plain (deref h d) ->
  let r := Dict.filter h d p in
  Dict.get r.2 r.1 k
  = match Dict.get h d k with
    | Something v => if p v k then Something v else Nothing
    | Nothing => Nothing
    end.
Proof.
  intros Hd Hpl r. unfold r. rewrite filter_unfold.
  pose proof (props_filter_loop h d p k Hpl) as Hl.
  pose proof (filter_loop_flag h d p (proj1 Hpl)) as Hf.
  destruct (Dict.filter_loop p (deref h d)).2 eqn:Hany; cbn [fst snd].
  - rewrite !get_lookup, deref_alloc_new, Hl.
    destruct (props (deref h d) !! k) as [v|]; [|done]. by destruct (p v k).
  - rewrite get_alloc_old by done.
    destruct (Dict.get h d k) as [v|] eqn:Hk; [|done].
    symmetry in Hf. apply negb_false_iff in Hf.
    by rewrite (proj1 (every_forall h d p) Hf k v Hk).
Qed.

(** X8.  [filter(m, p)], for a mapping [m] whose prototype was not
    replaced, is [m] itself exactly when [every(m, p)] holds. *)
Theorem filter_same_reference_iff_every h d p :
  d < length h -> proto (deref h d) = ObjectPrototype ->
  (Dict.filter h d p).1 = d <-> Dict.every h d p = true.
Proof.
  intros Hd Hp. rewrite filter_unfold, filter_loop_flag by done. cbn [fst].
  destruct (Dict.every h d p); simpl; split; intros; (done || lia).
Qed.

(** X9.  [every] and [some] quantify over the entries: [every(m, p)] holds when
    [p] is true of each entry, which includes the empty mapping, and
    [some(m, p)] when [p] is true of at least one; [some] is the dual of
    [every]. *)
Theorem every_some_spec h d p :
  (Dict.every h d p = true <->
   forall k v, Dict.get h d k = Something v -> p v k = true) /\
  (Dict.some h d p = true <->
   exists k v, Dict.get h d k = Something v /\ p v k = true) /\
  Dict.some h d p = negb (Dict.every h d (fun v k => negb (p v k))).
Proof.
  split; [apply every_forall|]. unfold Dict.some, Dict.every. split.
  - rewrite existsb_exists. split.
    + intros ([k v] & Hin & Hp). exists k, v. split; [|done].
      apply get_Something, elem_of_entries. by apply list_elem_of_In.
    + intros (k & v & Hk & Hp). exists (k, v). split; [|done].
      apply list_elem_of_In, elem_of_entries. by apply get_Something.
  - induction (Dict.entries h d) as [|e l IH]; simpl; [done|].
    rewrite IH. by destruct (p (second e) (first e)).
Qed.

(** X10.  [map(m, fn)], for a plain [m], has the keys of [m], and at each
    key the value that [fn] gives for the entry of [m]. *)
Theorem map_transforms_every_value h d fn k :
  d < length h -> plain (deref h d) ->
  let r := Dict.map h d fn in
  Dict.get r.2 r.1 k
  = match Dict.get h d k with
    | Something v => Something (fn v k)
    | Nothing => Nothing
    end.
Proof.
  intros Hd Hpl r. unfold r. rewrite map_unfold.
  pose proof (props_map_loop h d fn k Hpl) as Hl.
  pose proof (map_loop_flag h d fn (proj1 Hpl)) as Hf.
  destruct (Dict.map_loop fn (deref h d)).2 eqn:Hany; cbn [fst snd].
  - rewrite !get_lookup, deref_alloc_new, Hl.
    by destruct (props (deref h d) !! k).
  - rewrite get_alloc_old by done.
    destruct (Dict.get h d k) as [v|] eqn:Hk; [|done].
    pose proof (proj1 Hf eq_refl k v Hk) as Heq.
    by apply strict_equal_eq in Heq as ->.
Qed.

(** X11.  [map(m, fn)], for a mapping [m] whose prototype was not replaced,
    is [m] itself exactly when [fn] gives, for every entry, a value
    strictly equal to the value of the entry. *)
Theorem map_same_reference_iff h d fn :
  d < length h -> proto (deref h d) = ObjectPrototype ->
  (Dict.map h d fn).1 = d <->
  forall k v, Dict.get h d k = Something v -> strict_equal (fn v k) v = true.
Proof.
  intros Hd Hp. rewrite map_unfold. cbn [fst].
  pose proof (map_loop_flag h d fn Hp) as Hf.
  destruct (Dict.map_loop fn (deref h d)).2.
  - split; [lia|]. intros Hall. by apply Hf in Hall.
  - split; [|done]. intros _. by apply Hf.
Qed.

(** X18.  [forEach], on a mapping whose prototype was not replaced, calls
    its function once for each entry, with the value and the key of the
    entry, in the order of [entries]: a function that records its
    arguments records the entries. *)
Theorem forEach_visits_the_entries h d :
  proto (deref h d) = ObjectPrototype ->
  Dict.forEach h d (fun value key calls => calls ++ [(key, value)]) []
  = Dict.entries h d.
Proof.
  intros Hp. rewrite forEach_fold, for_in_entries_entries by done.
  generalize (Dict.entries h d). intros l.
  assert (Hgen : forall acc : list (string * V),
             fold_left (fun s e => s ++ [(e.1, e.2)]) l acc = acc ++ l).
  { induction l as [|[k v] l IH]; intros acc; simpl.
    - by rewrite app_nil_r.
    - rewrite IH. by rewrite <- app_assoc. }
  apply Hgen.
Qed.

End DictTraversals.

(** ** Views, sizes and compositions *)

Section DictViews.
Context {V : Type} `{JsValue V}.
Implicit Types (o : object V) (h : heap V) (d : loc) (k key : string) (v : V).

Lemma zip_own o (ks : list string) :
  (forall k, k ∈ ks -> is_Some (props o !! k)) ->
  omap (fun key => pair key <$> props o !! key) ks
  = zip ks (omap (fun key => props o !! key) ks).
Proof.
  intros Hks. induction ks as [|k ks IH]; [done|]. simpl.
  destruct (Hks k) as [v Hk]; [by left|]. rewrite Hk. simpl. f_equal.
  apply IH. intros k' Hk'. apply Hks. by right.
Qed.

Lemma length_omap_own o (ks : list string) :
  (forall k, k ∈ ks -> is_Some (props o !! k)) ->
  length (omap (fun key => props o !! key) ks) = length ks.
Proof.
  intros Hks. induction ks as [|k ks IH]; [done|]. simpl.
  destruct (Hks k) as [v Hk]; [by left|]. rewrite Hk. simpl. f_equal.
  apply IH. intros k' Hk'. apply Hks. by right.
Qed.

(** X12.  [keys], [values] and [entries] list the same entries in the same
    order: the i-th entry pairs the i-th key with the i-th value.  No key
    is listed twice, the keys are those that [has] accepts, the entries
    those that [get] returns, and [size] counts them. *)
Theorem keys_values_entries_agree h d :
  Dict.entries h d = zip (Dict.keys h d) (Dict.values h d) /\
  NoDup (Dict.keys h d) /\
  length (Dict.values h d) = Dict.size h d /\
  length (Dict.entries h d) = Dict.size h d /\
  (forall k, k ∈ Dict.keys h d <-> Dict.has h d k = true) /\
  (forall k v, (k, v) ∈ Dict.entries h d <-> Dict.get h d k = Something v).
Proof.
  assert (Hzip : Dict.entries h d = zip (Dict.keys h d) (Dict.values h d)).
  { rewrite entries_own. unfold Dict.keys, Dict.values. apply zip_own.
    intros k. apply elem_of_own_keys. }
  assert (Hlen : length (Dict.entries h d) = Dict.size h d).
  { unfold Dict.size. by rewrite <- fst_entries, length_fmap. }
  split; [done|]. split; [apply NoDup_own_keys|]. split; [|split; [done|split]].
  - unfold Dict.values, Dict.size, Dict.keys. apply length_omap_own.
    intros k. apply elem_of_own_keys.
  - intros k. unfold Dict.keys, Dict.has.
    by rewrite elem_of_own_keys, has_own_true.
  - intros k v. by rewrite elem_of_entries, get_Something.
Qed.

(** X13.  On a plain mapping, [set] of a value that [Object.prototype]
    does not hold under the key, at a key other than [__proto__], adds one
    entry when the key is new and keeps the number of entries when it is
    not; [remove] takes one entry away when the key is present and none
    when it is not. *)
Theorem size_after_edit h d k v :
  plain (deref h d) -> k ≠ proto_key -> on_object_prototype k v = false ->
  (let r := Dict.set h d k v in
   Dict.size r.2 r.1 = if Dict.has h d k then Dict.size h d else S (Dict.size h d)) /\
  (let r := Dict.remove h d k in
   Dict.size r.2 r.1 = if Dict.has h d k then pred (Dict.size h d) else Dict.size h d).
Proof.
  intros Hpl Hk Hv. cbn zeta. rewrite !size_props.
  destruct (props_set_plain h d k v Hpl Hk) as [_ Hset].
  destruct (props_remove_plain h d k Hpl) as [_ Hremove].
  rewrite Hset, Hremove, Hv, andb_false_r. unfold Dict.has.
  destruct (props (deref h d) !! k) as [w|] eqn:Hw.
  - assert (Hsome : is_Some (props (deref h d) !! k)) by (rewrite Hw; eauto).
    rewrite (proj2 (has_own_true _ _)) by done. split.
    + by apply map_size_insert_Some.
    + by apply map_size_delete_Some.
  - rewrite (proj2 (has_own_false _ _)) by done. split.
    + by apply map_size_insert_None.
    + by rewrite delete_id.
Qed.

Lemma fold_left_commute {R : Type} (f : R -> string * V -> R)
    (l : list (string * V)) (a : R) (e : string * V) :
  (forall a e1 e2, f (f a e1) e2 = f (f a e2) e1) ->
  fold_left f l (f a e) = f (fold_left f l a) e.
Proof.
  intros Hcomm. revert a. induction l as [|e' l IH]; intros a; simpl; [done|].
  by rewrite <- IH, Hcomm.
Qed.

Lemma fold_left_permutation {R : Type} (f : R -> string * V -> R)
    (l1 l2 : list (string * V)) (a : R) :
  (forall a e1 e2, f (f a e1) e2 = f (f a e2) e1) ->
  l1 ≡ₚ l2 -> fold_left f l1 a = fold_left f l2 a.
Proof.
  intros Hcomm Hperm. revert a.
  induction Hperm as [|e l1 l2 _ IH|e1 e2 l|l1 l2 l3 _ IH1 _ IH2]; intros a; simpl.
  - done.
  - apply IH.
  - by rewrite Hcomm.
  - by rewrite IH1.
Qed.

(** X14.  For a reducer that does not depend on the order of the entries,
    reducing a plain mapping to which [set] has added a new key, with a
    value that [Object.prototype] does not hold under that key, is one more
    step on the reduction of the mapping it was added to. *)
Theorem reduce_after_set {R : Type} h d k v (fn : R -> V -> string -> R) (init : R) :
  (forall a v1 k1 v2 k2, fn (fn a v1 k1) v2 k2 = fn (fn a v2 k2) v1 k1) ->
  plain (deref h d) -> k ≠ proto_key -> on_object_prototype k v = false ->
  Dict.get h d k = Nothing ->
  let r := Dict.set h d k v in
  Dict.reduce r.2 r.1 fn init = fn (Dict.reduce h d fn init) v k.
Proof.
  intros Hcomm Hpl Hk Hv Hnew r. apply get_Nothing in Hnew.
  unfold Dict.reduce.
  set (f := fun (a : R) (e : string * V) => fn a (second e) (first e)).
  assert (Hf : forall a e1 e2, f (f a e1) e2 = f (f a e2) e1).
  { intros a e1 e2. apply Hcomm. }
  assert (Hperm : Dict.entries r.2 r.1 ≡ₚ (k, v) :: Dict.entries h d).
  { rewrite !entries_map_to_list. unfold r.
    destruct (props_set_plain h d k v Hpl Hk) as [_ Hset].
    rewrite Hset, Hv, andb_false_r. by apply map_to_list_insert. }
  rewrite (fold_left_permutation f _ _ init Hf Hperm).
  simpl. by rewrite fold_left_commute.
Qed.

(** X15.  Merging three mappings at once gives the entries that merging the
    first two and then merging the result with the third gives. *)
Theorem merge_in_two_steps h a b c k :
  a < length h -> b < length h -> c < length h ->
  let r := Dict.merge h [a; b; c] in
  let r1 := Dict.merge h [a; b] in
  let r2 := Dict.merge r1.2 [r1.1; c] in
  Dict.get r2.2 r2.1 k = Dict.get r.2 r.1 k.
Proof.
  intros Ha Hb Hc r r1 r2.
  assert (Hsame : r2 = r).
  { unfold r2, r. rewrite !merge_two_or_more. rewrite <- surjective_pairing.
    unfold r1. rewrite merge_two_or_more. by rewrite (merge_all_cons b [c]). }
  by rewrite Hsame.
Qed.

(** X16.  [merge] is idempotent on a mapping that holds no [NaN], and
    whose prototype was not replaced: merging the mapping with itself
    returns that mapping and allocates nothing.  A mapping that holds
    [NaN] is not returned. *)
Theorem merge_with_itself h d :
  d < length h -> proto (deref h d) = ObjectPrototype ->
  ((forall k v, Dict.get h d k = Something v -> is_nan v = false) ->
   Dict.merge h [d; d] = (d, h)) /\
  (forall k v, Dict.get h d k = Something v -> is_nan v = true ->
               (Dict.merge h [d; d]).1 <> d).
Proof.
  intros Hd Hp. rewrite merge_two_or_more. split.
  - intros Hnan. apply merge_all_same. intros d' k v Hd' Hin.
    apply list_elem_of_singleton in Hd' as ->.
    rewrite for_in_entries_entries in Hin by done.
    apply elem_of_entries in Hin. rewrite (read_equals_own _ _ _ _ Hin).
    rewrite strict_equal_refl. apply negb_true_iff, (Hnan k).
    by apply get_Something.
  - intros k v Hk Hnan. rewrite (merge_all_cons d []). cbn [fst snd].
    change (merge_all [] ?st) with st.
    apply get_Something in Hk.
    apply (set_all_differs _ d h k v); [done| |].
    + by apply own_is_visited.
    + rewrite (read_equals_own _ _ _ _ Hk). by apply strict_equal_nan.
Qed.

(** X17.  How edits of a plain mapping compose, as seen by [get] at any
    key: of two [set]s at one key other than [__proto__] the later decides,
    when its value is not the member of [Object.prototype] under that key;
    [set]s at different keys other than [__proto__] can be swapped; and
    removing a key other than [__proto__] that [set] has just added gives
    back the entries the mapping had. *)
Theorem edits_compose h d key :
  plain (deref h d) ->
  (forall k v1 v2,
      k ≠ proto_key -> on_object_prototype k v2 = false ->
      let r := Dict.set h d k v1 in
      let r' := Dict.set r.2 r.1 k v2 in
      let s := Dict.set h d k v2 in
      Dict.get r'.2 r'.1 key = Dict.get s.2 s.1 key) /\
  (forall k1 v1 k2 v2,
      k1 ≠ k2 -> k1 ≠ proto_key -> k2 ≠ proto_key ->
      let r := Dict.set h d k1 v1 in
      let r' := Dict.set r.2 r.1 k2 v2 in
      let s := Dict.set h d k2 v2 in
      let s' := Dict.set s.2 s.1 k1 v1 in
      Dict.get r'.2 r'.1 key = Dict.get s'.2 s'.1 key) /\
  (forall k v,
      k ≠ proto_key -> Dict.get h d k = Nothing ->
      let r := Dict.set h d k v in
      let r' := Dict.remove r.2 r.1 k in
      Dict.get r'.2 r'.1 key = Dict.get h d key).
Proof.
  intros Hpl. split; [|split].
  - intros k v1 v2 Hk Hv2 r r' s.
    destruct (props_set_plain h d k v1 Hpl Hk) as [Hpl1 Hp1]. fold r in Hpl1, Hp1.
    destruct (props_set_plain r.2 r.1 k v2 Hpl1 Hk) as [_ Hp2]. fold r' in Hp2.
    destruct (props_set_plain h d k v2 Hpl Hk) as [_ Hp3]. fold s in Hp3.
    rewrite !get_lookup, Hp2, Hp3, Hp1, Hv2, !andb_false_r.
    destruct (negb (Dict.has h d k) && on_object_prototype k v1); [done|].
    by rewrite insert_insert_eq.
  - intros k1 v1 k2 v2 Hne Hk1 Hk2 r r' s s'.
    destruct (props_set_plain h d k1 v1 Hpl Hk1) as [Hpl1 Hp1]. fold r in Hpl1, Hp1.
    destruct (props_set_plain r.2 r.1 k2 v2 Hpl1 Hk2) as [_ Hp2]. fold r' in Hp2.
    destruct (props_set_plain h d k2 v2 Hpl Hk2) as [Hpl3 Hp3]. fold s in Hpl3, Hp3.
    destruct (props_set_plain s.2 s.1 k1 v1 Hpl3 Hk1) as [_ Hp4]. fold s' in Hp4.
    assert (Hhas2 : Dict.has r.2 r.1 k2 = Dict.has h d k2).
    { unfold Dict.has, has_own. rewrite Hp1.
      destruct (negb (Dict.has h d k1) && on_object_prototype k1 v1); [done|].
      by rewrite lookup_insert_ne. }
    assert (Hhas1 : Dict.has s.2 s.1 k1 = Dict.has h d k1).
    { unfold Dict.has, has_own. rewrite Hp3.
      destruct (negb (Dict.has h d k2) && on_object_prototype k2 v2); [done|].
      by rewrite lookup_insert_ne. }
    rewrite !get_lookup, Hp2, Hp4, Hp1, Hp3, Hhas1, Hhas2.
    destruct (negb (Dict.has h d k1) && on_object_prototype k1 v1),
      (negb (Dict.has h d k2) && on_object_prototype k2 v2); try done.
    by rewrite insert_insert_ne.
  - intros k v Hk Hnew r r'. apply get_Nothing in Hnew.
    destruct (props_set_plain h d k v Hpl Hk) as [Hpl1 Hp1]. fold r in Hpl1, Hp1.
    destruct (props_remove_plain r.2 r.1 k Hpl1) as [_ Hp2]. fold r' in Hp2.
    rewrite !get_lookup, Hp2, Hp1.
    destruct (negb (Dict.has h d k) && on_object_prototype k v).
    + by rewrite delete_id.
    + by rewrite delete_insert_id.
Qed.

End DictViews.

(** ** Facts about the List operations *)

Section SliceFacts.
Context {V : Type}.
Implicit Types (l s : list V) (x : V).

Lemma front_take l : List_.front l = take (length l - 1) l.
Proof.
  unfold List_.front, List_.slice, List_.relative_index.
  repeat case_decide; try lia.
  replace (Z.to_nat (Z.min 0 (Z.of_nat (length l)))) with 0%nat by lia.
  rewrite drop_0. f_equal. lia.
Qed.

Lemma tail_drop l : List_.tail l = drop 1 l.
Proof.
  unfold List_.tail, List_.slice, List_.relative_index.
  case_decide; try lia.
  destruct l as [|x l]; [done|].
  replace (Z.to_nat (Z.min 1 (Z.of_nat (length (x :: l))))) with 1%nat
    by (simpl length; lia).
  apply take_ge. rewrite length_drop. simpl length. lia.
Qed.

Lemma index_lookup l (i : nat) : List_.index l (Z.of_nat i) = l !! i.
Proof.
  unfold List_.index. case_decide; [|lia]. by rewrite Nat2Z.id.
Qed.

Lemma index_negative l (i : Z) : (i < 0)%Z -> List_.index l i = None.
Proof. intros Hi. unfold List_.index. case_decide; [lia|done]. Qed.

End SliceFacts.

(** ** Claims about [head], [end], [front] and [tail] *)

Section AccessorClaims.
Context {V : Type}.
Implicit Types (l s : list V) (x : V).

(** C8.  [head] and [end] return [Something] of the first and of the last
    item of a non-empty list and [Nothing()] on the empty list.  Both are
    total: nothing is thrown, and on the empty list the index read is a
    defined read that yields [undefined], which [wrap] turns into
    [Nothing()]. *)
Theorem head_end_spec :
  (List_.head (@nil V) = Nothing /\ List_.end_ (@nil V) = Nothing) /\
  (forall x l, List_.head (x :: l) = Something x) /\
  (forall l x, List_.end_ (l ++ [x]) = Something x).
Proof.
  split; [|split].
  - split; reflexivity.
  - intros x l. reflexivity.
  - intros l x. unfold List_.end_. simpl isNone. cbv iota.
    rewrite length_app. simpl length.
    replace (Z.of_nat (length l + 1) - 1)%Z with (Z.of_nat (length l)) by lia.
    rewrite index_lookup.
    by rewrite lookup_app_r, Nat.sub_diag by lia.
Qed.

(** C9.  For a list of length at least 2, [front(tail(s))] and
    [tail(front(s))] are the same list; for a list of length 0 or 1 both
    [front(s)] and [tail(s)] are empty. *)
Theorem front_tail_spec s :
  (2 <= length s -> List_.front (List_.tail s) = List_.tail (List_.front s)) /\
  (length s <= 1 -> List_.front s = [] /\ List_.tail s = []).
Proof.
  split.
  - intros Hs. rewrite !front_take, !tail_drop, length_drop.
    rewrite take_drop_commute. do 2 f_equal. lia.
  - intros Hs. rewrite front_take, tail_drop.
    destruct s as [|x [|y s]]; simpl in *; [done|done|lia].
Qed.

End AccessorClaims.

Section UniqueFacts.
Context {V : Type} `{Countable V}.
Implicit Types (l : list V) (x : V).

Lemma unique_loop_snoc l x :
  List_.unique_loop (l ++ [x])
  = let st := List_.unique_loop l in
    if decide (x ∈ st.1.1) then (st.1.1, st.1.2, true)
    else ({[x]} ∪ st.1.1, st.1.2 ++ [x], st.2).
Proof. unfold List_.unique_loop. by rewrite fold_left_app. Qed.

(** What the loop of [unique] has computed once it is through [l]. *)
Lemma unique_loop_spec l :
  (forall x, x ∈ (List_.unique_loop l).1.1 <-> x ∈ l) /\
  (List_.unique_loop l).1.2 = first_occurrences l /\
  ((List_.unique_loop l).2 = false <-> NoDup l).
Proof.
  induction l as [|y l (Hseen & Hcopy & Hany)] using rev_ind.
  { split; [|split]; [|done|].
    - intros x. simpl. by rewrite elem_of_empty, elem_of_nil.
    - split; [constructor|done]. }
  rewrite unique_loop_snoc, first_occurrences_snoc. cbn zeta.
  destruct (decide (y ∈ (List_.unique_loop l).1.1)) as [Hy|Hy]; simpl.
  - apply Hseen in Hy. rewrite decide_True by done.
    split; [|split].
    + intros x. rewrite Hseen, elem_of_app, list_elem_of_singleton.
      split; [auto|]. intros [Hx|Hx]; [done|by subst x].
    + by rewrite Hcopy, app_nil_r.
    + rewrite NoDup_snoc. split; [done|]. intros [_ Hny]. by destruct Hny.
  - rewrite Hseen in Hy. rewrite decide_False by done.
    split; [|split].
    + intros x. rewrite elem_of_union, elem_of_singleton, Hseen, elem_of_app,
        list_elem_of_singleton. tauto.
    + by rewrite Hcopy.
    + rewrite NoDup_snoc, Hany. tauto.
Qed.

Lemma unique_items_spec l : List_.unique_items l = first_occurrences l.
Proof.
  unfold List_.unique_items. destruct (unique_loop_spec l) as (_ & Hcopy & Hany).
  destruct (List_.unique_loop l).2 eqn:Hb; [done|].
  symmetry. apply first_occurrences_id. by apply Hany.
Qed.

Lemma unique_unfold (h : list (list V)) (lst : loc) :
  List_.unique h lst
  = (if (List_.unique_loop (List_.items h lst)).2 then length h else lst,
     h ++ [(List_.unique_loop (List_.items h lst)).1.2]).
Proof.
  unfold List_.unique, alloc. by rewrite store_alloc.
Qed.

Lemma items_alloc_new (h : list (list V)) l : List_.items (h ++ [l]) (length h) = l.
Proof. unfold List_.items. by rewrite lookup_alloc_new. Qed.

Lemma items_alloc_old (h : list (list V)) l (lst : loc) :
  lst < length h -> List_.items (h ++ [l]) lst = List_.items h lst.
Proof. intros Hl. unfold List_.items. by rewrite lookup_alloc_old. Qed.

End UniqueFacts.

(** ** Claim about [unique] *)

Section UniqueClaim.
Context {V : Type} `{Countable V}.
Implicit Types (h : list (list V)) (lst : loc).


End UniqueClaim.

(** ** [group] *)

Section GroupFacts.
Context {K V : Type} `{Countable K} `{NaN K}.
Implicit Types (l : list V) (key : K) (x : V).

Lemma fold_left_snoc_fmap {A B : Type} (g : A -> B) (l : list A) (acc : list B) :
  fold_left (fun groups a => groups ++ [g a]) l acc = acc ++ (g <$> l).
Proof.
  revert acc. induction l as [|a l IH]; intros acc; simpl.
  - by rewrite app_nil_r.
  - rewrite IH. by rewrite <- app_assoc.
Qed.

Lemma members_with_key_cons (f : V -> nat -> K) x l key :
  members_with_key f (x :: l) key
  = (if decide (f x 0 = key) then [x] else [])
    ++ members_with_key (fun y i => f y (S i)) l key.
Proof.
  unfold members_with_key. rewrite imap_cons. simpl.
  by destruct (decide (f x 0 = key)).
Qed.

Lemma members_with_key_sublist (f : V -> nat -> K) l key :
  members_with_key f l key `sublist_of` l.
Proof.
  revert f. induction l as [|x l IH]; intros f; [done|].
  rewrite members_with_key_cons.
  destruct (decide (f x 0 = key)); simpl.
  - by apply sublist_skip.
  - by apply sublist_cons.
Qed.

Lemma elem_of_members_with_key (f : V -> nat -> K) l key x :
  x ∈ members_with_key f l key <-> exists i, l !! i = Some x /\ f x i = key.
Proof.
  revert f. induction l as [|y l IH]; intros f.
  { split; [by intros ?%elem_of_nil|by intros (i & ? & _)]. }
  rewrite members_with_key_cons, elem_of_app, IH. split.
  - intros [Hx|(i & Hi & Hk)].
    + destruct (decide (f y 0 = key)) as [Hk|]; [|by apply elem_of_nil in Hx].
      apply list_elem_of_singleton in Hx. subst x. by exists 0.
    + by exists (S i).
  - intros ([|i] & Hi & Hk); simpl in Hi.
    + left. injection Hi as ->. rewrite decide_True by done. by left.
    + right. eauto.
Qed.

(** The members that the loop of [group] selects for one key: none for
    [NaN], which [===] finds equal to nothing. *)
Lemma group_members (f : V -> nat -> K) l key :
  second <$> base.filter (fun pair => strict_equal key (first pair) = true)
               (imap (fun index value => Pair (f value index) value) l)
  = if is_nan key then [] else members_with_key f l key.
Proof.
  revert f. induction l as [|x l IH]; intros f.
  { by destruct (is_nan key). }
  rewrite members_with_key_cons, imap_cons, filter_cons.
  unfold first at 1, Pair at 1. simpl fst.
  specialize (IH (fun y i => f y (S i))).
  destruct (is_nan key) eqn:Hnan.
  - rewrite decide_False; [exact IH|].
    rewrite strict_equal_nan by done. done.
  - destruct (decide (key = f x 0)) as [Hk|Hk].
    + rewrite decide_True by (apply strict_equal_true; done).
      rewrite decide_True by done. rewrite fmap_cons. simpl.
      f_equal. exact IH.
    + rewrite decide_False.
      * rewrite decide_False by congruence. simpl. exact IH.
      * intros Heq. by apply strict_equal_eq in Heq.
Qed.

Lemma group_keys (f : V -> nat -> K) l :
  first <$> imap (fun index value => Pair (f value index) value) l
  = imap (fun i x => f x i) l.
Proof. rewrite fmap_imap. by apply imap_ext. Qed.

(** [group], in one equation. *)
Lemma group_unfold_nan (f : V -> nat -> K) l :
  List_.group l f
  = (fun key => (key, if is_nan key then [] else members_with_key f l key))
      <$> first_occurrences (imap (fun i x => f x i) l).
Proof.
  unfold List_.group. cbn zeta.
  rewrite fold_left_snoc_fmap, app_nil_l.
  rewrite unique_items_spec, group_keys.
  apply list_fmap_ext. intros _ key _. unfold Pair. f_equal.
  apply group_members.
Qed.

(** [group] when no computed key is [NaN]. *)
Lemma group_unfold (f : V -> nat -> K) l :
  (forall i x, l !! i = Some x -> is_nan (f x i) = false) ->
  List_.group l f
  = (fun key => (key, members_with_key f l key))
      <$> first_occurrences (imap (fun i x => f x i) l).
Proof.
  intros Hnan. rewrite group_unfold_nan.
  apply list_fmap_ext. intros j key Hj.
  assert (Hkey : key ∈ imap (fun i x => f x i) l).
  { apply elem_of_first_occurrences, list_elem_of_lookup. eauto. }
  apply elem_of_lookup_imap in Hkey as (i & x & -> & Hi).
  by rewrite (Hnan i x Hi).
Qed.

Lemma members_with_key_snoc (f : V -> nat -> K) l x key :
  members_with_key f (l ++ [x]) key
  = members_with_key f l key ++ (if decide (f x (length l) = key) then [x] else []).
Proof.
  unfold members_with_key. rewrite imap_app, omap_app. simpl.
  rewrite Nat.add_0_r. by destruct (decide (f x (length l) = key)).
Qed.

Lemma computed_keys_snoc (f : V -> nat -> K) l x :
  imap (fun i y => f y i) (l ++ [x]) = imap (fun i y => f y i) l ++ [f x (length l)].
Proof. rewrite imap_app. simpl. by rewrite Nat.add_0_r. Qed.

Lemma members_of_unused_key (f : V -> nat -> K) l key :
  key ∉ imap (fun i y => f y i) l -> members_with_key f l key = [].
Proof.
  intros Hkey. apply elem_of_nil_inv. intros x Hx.
  apply elem_of_members_with_key in Hx as (i & Hi & Hk).
  apply Hkey. subst key. by apply (elem_of_lookup_imap_2 (fun i y => f y i)).
Qed.

Lemma concat_one_more (g : K -> list V) (ks : list K) (kx : K) x :
  NoDup ks -> kx ∈ ks ->
  concat ((fun key => g key ++ (if decide (kx = key) then [x] else [])) <$> ks)
  ≡ₚ concat (g <$> ks) ++ [x].
Proof.
  induction ks as [|k0 ks IH]; intros Hnd Hin.
  { by apply elem_of_nil in Hin. }
  apply NoDup_cons in Hnd as [Hk0 Hnd].
  rewrite !fmap_cons, !concat_cons.
  destruct (decide (kx = k0)) as [->|Hne].
  - assert (Hrest : (fun key => g key ++ (if decide (k0 = key) then [x] else [])) <$> ks
                    = g <$> ks).
    { apply list_fmap_ext. intros i key Hi.
      rewrite decide_False; [by rewrite app_nil_r|].
      intros <-. apply Hk0. apply list_elem_of_lookup. eauto. }
    rewrite Hrest. rewrite <- !app_assoc. f_equiv. apply Permutation_app_comm.
  - apply elem_of_cons in Hin as [Heq|Hin]; [done|].
    rewrite app_nil_r, IH by done. by rewrite app_assoc.
Qed.

(** The member lists of the distinct keys, put one after the other, hold
    each item once. *)
Lemma members_partition (f : V -> nat -> K) l :
  concat ((fun key => members_with_key f l key)
            <$> first_occurrences (imap (fun i y => f y i) l)) ≡ₚ l.
Proof.
  induction l as [|x l IH] using rev_ind; [done|].
  rewrite computed_keys_snoc, first_occurrences_snoc.
  set (computed := imap (fun i y => f y i) l) in *.
  set (kx := f x (length l)).
  rewrite fmap_app, concat_app.
  assert (Hold : (fun key => members_with_key f (l ++ [x]) key)
                   <$> first_occurrences computed
                 = (fun key => members_with_key f l key
                               ++ (if decide (kx = key) then [x] else []))
                   <$> first_occurrences computed).
  { apply list_fmap_ext. intros i key _. apply members_with_key_snoc. }
  rewrite Hold.
  destruct (decide (kx ∈ computed)) as [Hin|Hnotin].
  - simpl. rewrite app_nil_r.
    rewrite concat_one_more; [by rewrite IH|apply first_occurrences_NoDup|].
    by apply elem_of_first_occurrences.
  - assert (Hsame : (fun key => members_with_key f l key
                                ++ (if decide (kx = key) then [x] else []))
                      <$> first_occurrences computed
                    = (fun key => members_with_key f l key)
                      <$> first_occurrences computed).
    { apply list_fmap_ext. intros i key Hi.
      rewrite decide_False; [by rewrite app_nil_r|].
      intros <-. apply Hnotin. apply elem_of_first_occurrences.
      apply list_elem_of_lookup. eauto. }
    rewrite Hsame, IH. simpl.
    rewrite members_with_key_snoc, members_of_unused_key by done.
    fold kx. rewrite decide_True by done.
    by rewrite app_nil_l, app_nil_r.
Qed.

End GroupFacts.

(** ** Claims about [group] *)

Section GroupClaims.
Context {K V : Type} `{Countable K} `{NaN K}.
Implicit Types (l : list V) (key : K) (x : V) (f : V -> nat -> K).

(** C5 (fails for the key [NaN]).  The keys are made unique with a [Set],
    for which [NaN] is one value, but the members of a key are selected
    with [===], for which [NaN] equals nothing.  When the key function
    gives [NaN] for an item, the result has a pair for [NaN], and that pair
    has no members: the item is in no group of its key, as in
    [group([1, 2], () => NaN)], which is [[[NaN, []]]]. *)
Theorem group_loses_items_of_nan_key l f i x :
  l !! i = Some x -> is_nan (f x i) = true ->
  (f x i, []) ∈ List_.group l f /\
  (forall ms, (f x i, ms) ∈ List_.group l f -> ms = []) /\
  (forall key ms, (key, ms) ∈ List_.group l f -> is_nan key = true -> x ∉ ms).
Proof.
  intros Hi Hnan. rewrite group_unfold_nan. split; [|split].
  - apply list_elem_of_fmap. exists (f x i). rewrite Hnan. split; [done|].
    apply elem_of_first_occurrences.
    by apply (elem_of_lookup_imap_2 (fun i x => f x i)).
  - intros ms Hin. apply list_elem_of_fmap in Hin as (key & Heq & _).
    injection Heq as <- ->. by rewrite Hnan.
  - intros key ms Hin Hkey. apply list_elem_of_fmap in Hin as (key' & Heq & _).
    injection Heq as -> ->. rewrite Hkey. apply not_elem_of_nil.
Qed.

(** X27.  When no computed key is [NaN], [group(s, keyFn)] has one pair
    per distinct computed key, in the order in which the keys first appear;
    the members of a pair are exactly the items whose computed key is the
    key of the pair, in the order of [s]; and every item is a member of the
    pair of its key. *)
Theorem group_spec l (keyFn : V -> nat -> K) :
  (forall i x, l !! i = Some x -> is_nan (keyFn x i) = false) ->
  let computed := imap (fun i x => keyFn x i) l in
  (List_.group l keyFn).*1 = first_occurrences computed /\
  NoDup (List_.group l keyFn).*1 /\
  (forall key ms, (key, ms) ∈ List_.group l keyFn ->
     ms = members_with_key keyFn l key /\
     ms `sublist_of` l /\
     (forall x, x ∈ ms <-> exists i, l !! i = Some x /\ keyFn x i = key)) /\
  (forall i x, l !! i = Some x ->
     exists ms, (keyFn x i, ms) ∈ List_.group l keyFn /\ x ∈ ms).
Proof.
  intros Hnan computed. rewrite group_unfold by done. fold computed.
  assert (Hkeys : ((fun key => (key, members_with_key keyFn l key))
                     <$> first_occurrences computed).*1
                  = first_occurrences computed).
  { rewrite <- list_fmap_compose. apply list_fmap_id. }
  rewrite Hkeys.
  split; [done|]. split; [apply first_occurrences_NoDup|]. split.
  - intros key ms Hin.
    apply list_elem_of_fmap in Hin as (key' & Heq & _).
    injection Heq as -> ->.
    split; [done|]. split; [apply members_with_key_sublist|].
    intros x. apply elem_of_members_with_key.
  - intros i x Hi. exists (members_with_key keyFn l (keyFn x i)). split.
    + apply list_elem_of_fmap. exists (keyFn x i). split; [done|].
      apply elem_of_first_occurrences. unfold computed.
      by apply (elem_of_lookup_imap_2 (fun i x => keyFn x i)).
    + apply elem_of_members_with_key. eauto.
Qed.

(** X21.  When no computed key is [NaN], [group] partitions the list: put
    one after the other, the member lists hold each item of the list
    once. *)
Theorem group_is_a_partition l f :
  (forall i x, l !! i = Some x -> is_nan (f x i) = false) ->
  concat (List_.group l f).*2 ≡ₚ l.
Proof.
  intros Hnan. rewrite group_unfold by done.
  rewrite <- list_fmap_compose.
  rewrite <- (members_partition f l) at 2. done.
Qed.

(** X22.  When no computed key is [NaN], no group is empty: every pair of
    [group] has at least one member; and the empty list has no groups. *)
Theorem group_has_no_empty_group l f :
  (forall i x, l !! i = Some x -> is_nan (f x i) = false) ->
  List_.group (@nil V) f = [] /\
  (forall key ms, (key, ms) ∈ List_.group l f -> ms <> []).
Proof.
  intros Hnan. split; [done|]. intros key ms Hin. rewrite group_unfold in Hin by done.
  apply list_elem_of_fmap in Hin as (key' & Heq & Hkey).
  injection Heq as -> ->.
  apply (proj1 (elem_of_first_occurrences _ _)) in Hkey.
  apply elem_of_lookup_imap in Hkey as (i & x & -> & Hi).
  intros Hnil.
  assert (Hx : x ∈ members_with_key f l (f x i)).
  { apply elem_of_members_with_key. eauto. }
  rewrite Hnil in Hx. by apply elem_of_nil in Hx.
Qed.

End GroupClaims.

Section GroupInto.
Context {V : Type} `{JsValue V} `{JsArrays V}.
Implicit Types (h : heap V) (l : list V) (f : V -> nat -> string).

Lemma groupInto_unfold h l f :
  List_.groupInto h l f
  = (length h,
     h ++ [assign_all
             ((fun key => (key, array_value (members_with_key f l key)))
                <$> first_occurrences (imap (fun i x => f x i) l))
             obj_empty]).
Proof.
  unfold List_.groupInto, Dict.Dict, alloc. rewrite Dict_object_pairs.
  rewrite group_unfold by done. by rewrite <- list_fmap_compose.
Qed.

(** X23.  [groupInto] gives a new Dict that holds, at every computed key other
    than [__proto__], the members of that key in the order of the list,
    and holds nothing at any other key. *)
Theorem groupInto_lookup h l f key :
  key ≠ proto_key ->
  let r := List_.groupInto h l f in
  r.1 = length h /\
  (key ∈ imap (fun i x => f x i) l ->
   Dict.get r.2 r.1 key = Something (array_value (members_with_key f l key))) /\
  (key ∉ imap (fun i x => f x i) l -> Dict.get r.2 r.1 key = Nothing).
Proof.
  intros Hkey r. unfold r. rewrite groupInto_unfold.
  cbn [fst snd]. split; [done|].
  set (computed := imap (fun i x => f x i) l).
  assert (Hfst : ((fun key => (key, array_value (members_with_key f l key)))
                    <$> first_occurrences computed).*1
                 = first_occurrences computed).
  { rewrite <- list_fmap_compose. apply list_fmap_id. }
  split.
  - intros Hin. apply get_Something. rewrite deref_alloc_new.
    apply assign_all_in; [|  |done].
    + rewrite Hfst. apply first_occurrences_NoDup.
    + apply list_elem_of_fmap. exists key. split; [done|].
      by apply elem_of_first_occurrences.
  - intros Hnotin. apply get_Nothing. rewrite deref_alloc_new.
    rewrite assign_all_notin; [done|].
    rewrite Hfst. by rewrite elem_of_first_occurrences.
Qed.

(** A function that records its arguments records what [for...in]
    visits. *)
Lemma forEach_records h' d :
  Dict.forEach h' d (fun value key calls => calls ++ [(key, value)]) []
  = for_in_entries (deref h' d).
Proof.
  rewrite forEach_fold. generalize (for_in_entries (deref h' d)). intros es.
  assert (Hgen : forall acc : list (string * V),
             fold_left (fun s e => s ++ [(e.1, e.2)]) es acc = acc ++ es).
  { induction es as [|[k v] es IH]; intros acc; simpl.
    - by rewrite app_nil_r.
    - rewrite IH. by rewrite <- app_assoc. }
  apply Hgen.
Qed.

(** An assignment to [__proto__] of an object value, among assignments to
    other keys, decides the prototype. *)
Lemma assign_all_replaces_prototype (pairs : list (string * V)) (o : object V) v :
  NoDup pairs.*1 -> (proto_key, v) ∈ pairs -> props o !! proto_key = None ->
  is_Some (as_prototype v) -> proto (assign_all pairs o) = Replaced v.
Proof.
  intros Hnd Hin Hnone [c Hc].
  apply list_elem_of_split in Hin as (l1 & l2 & ->).
  rewrite fmap_app, fmap_cons in Hnd. apply NoDup_app in Hnd as (_ & _ & Hnd).
  apply NoDup_cons in Hnd as [Hl2 _].
  unfold assign_all. rewrite fold_left_app. simpl.
  fold (assign_all l1 o).
  fold (assign_all l2 (obj_set (assign_all l1 o) proto_key v)).
  rewrite assign_all_proto by done.
  unfold obj_set. rewrite assign_all_no_proto by done.
  rewrite decide_True by done. by rewrite Hc.
Qed.

(** An enumerable property of a replaced prototype, at a key that the
    object does not own, is visited by [for...in]. *)
Lemma inherited_is_visited (o : object V) v c k w :
  proto o = Replaced v -> as_prototype v = Some c ->
  NoDup (chain_enumerable c).*1 -> (k, w) ∈ chain_enumerable c ->
  props o !! k = None -> (k, w) ∈ for_in_entries o.
Proof.
  intros Hp Hc Hnd Hin Hnone. apply elem_of_for_in_entries. split.
  - unfold for_in. apply elem_of_app. right. apply list_elem_of_filter.
    split; [done|]. apply elem_of_first_occurrences. unfold inherited.
    rewrite Hp, Hc. apply list_elem_of_fmap. by exists (k, w).
  - unfold prop_read, inherited_read. rewrite Hnone, Hp, Hc.
    destruct (list_find (fun e => e.1 = k) (chain_enumerable c))
      as [[j [k' w']]|] eqn:Hfind.
    + apply list_find_Some in Hfind as (Hj & Hk' & _). simpl in Hk'. subst k'.
      simpl. f_equal.
      assert (Hj' : (k, w') ∈ chain_enumerable c).
      { apply list_elem_of_lookup. eauto. }
      apply (elem_of_list_to_map (M := gmap string)) in Hj'; [|done].
      apply (elem_of_list_to_map (M := gmap string)) in Hin; [|done].
      congruence.
    + apply list_find_None in Hfind.
      apply (proj1 (Forall_forall _ _) Hfind) in Hin. by destruct Hin.
Qed.

(** X30.  When [__proto__] is a computed key, [groupInto] does not store
    its members: the assignment [map["__proto__"] = members] makes the
    array of members the prototype of the Dict.  The Dict has no entry at
    that key, and [forEach] is called for the enumerable properties of
    that array, the indices of the members, which are no entries of the
    Dict. *)
Theorem groupInto_proto_key_replaces_prototype h l f :
  proto_key ∈ imap (fun i x => f x i) l ->
  let members := array_value (members_with_key f l proto_key) in
  let r := List_.groupInto h l f in
  Dict.get r.2 r.1 proto_key = Nothing /\
  (is_Some (as_prototype members) -> proto (deref r.2 r.1) = Replaced members) /\
  (forall c k w, as_prototype members = Some c ->
     NoDup (chain_enumerable c).*1 -> (k, w) ∈ chain_enumerable c ->
     Dict.get r.2 r.1 k = Nothing ->
     (k, w) ∈ Dict.forEach r.2 r.1 (fun value key calls => calls ++ [(key, value)]) []).
Proof.
  intros Hin members r.
  set (pairs := (fun key => (key, array_value (members_with_key f l key)))
                  <$> first_occurrences (imap (fun i x => f x i) l)).
  assert (Hr : deref r.2 r.1 = assign_all pairs obj_empty).
  { unfold r. rewrite groupInto_unfold. cbn [fst snd]. by rewrite deref_alloc_new. }
  assert (Hproto : is_Some (as_prototype members) ->
                   proto (deref r.2 r.1) = Replaced members).
  { intros Hsome. rewrite Hr. apply assign_all_replaces_prototype; [| |done|done].
    - assert (Hfst : pairs.*1 = first_occurrences (imap (fun i x => f x i) l)).
      { unfold pairs. rewrite <- list_fmap_compose. apply list_fmap_id. }
      rewrite Hfst. apply first_occurrences_NoDup.
    - apply list_elem_of_fmap. exists proto_key. split; [done|].
      by apply elem_of_first_occurrences. }
  split; [|split; [done|]].
  - apply get_Nothing. rewrite Hr. by apply assign_all_no_proto.
  - intros c k w Hc Hnd Hkw Hnone. rewrite forEach_records.
    apply (inherited_is_visited _ members c); [|done|done|done|].
    + apply Hproto. by eexists.
    + by apply get_Nothing.
Qed.

End GroupInto.

(** * Further properties of [list.ts] *)

Section ListAccessors.
Context {V : Type}.
Implicit Types (l : list V) (x : V).

Lemma end_snoc l x : List_.end_ (l ++ [x]) = Something x.
Proof.
  unfold List_.end_. simpl isNone. cbv iota.
  rewrite length_app. simpl length.
  replace (Z.of_nat (length l + 1) - 1)%Z with (Z.of_nat (length l)) by lia.
  rewrite index_lookup. by rewrite lookup_app_r, Nat.sub_diag by lia.
Qed.

Lemma front_snoc l x : List_.front (l ++ [x]) = l.
Proof.
  rewrite front_take, length_app. simpl length.
  apply take_app_length'. lia.
Qed.

(** X19.  [head] and [end] answer [Nothing()] only on the empty list, and on any
    other list the four accessors take it apart: the list is its [head]
    followed by its [tail], and its [front] followed by its [end]. *)
Theorem accessors_take_the_list_apart l :
  (List_.head l = Nothing <-> l = []) /\
  (List_.end_ l = Nothing <-> l = []) /\
  (forall x, List_.head l = Something x -> l = x :: List_.tail l) /\
  (forall x, List_.end_ l = Something x -> l = List_.front l ++ [x]).
Proof.
  split; [|split; [|split]].
  - destruct l; split; done.
  - destruct l as [|x l _] using rev_ind; [done|].
    rewrite end_snoc. split; [done|]. intros Hl. by destruct l.
  - intros x Hx. destruct l as [|y l]; [done|].
    rewrite tail_drop. simpl. injection Hx as ->. done.
  - intros x Hx. destruct l as [|y l _] using rev_ind; [done|].
    rewrite end_snoc in Hx. injection Hx as ->. by rewrite front_snoc.
Qed.

End ListAccessors.

Section UniqueMore.
Context {V : Type} `{Countable V}.
Implicit Types (h : list (list V)) (lst : loc).

Lemma unique_result_items h lst :
  lst < length h ->
  List_.items (List_.unique h lst).2 (List_.unique h lst).1
  = first_occurrences (List_.items h lst).
Proof.
  intros Hlst. rewrite unique_unfold. simpl.
  destruct (unique_loop_spec (List_.items h lst)) as (_ & Hcopy & Hany).
  destruct (List_.unique_loop (List_.items h lst)).2 eqn:Hb.
  - by rewrite items_alloc_new.
  - rewrite items_alloc_old by done. symmetry.
    apply first_occurrences_id. by apply Hany.
Qed.

Lemma unique_result_allocated h lst :
  lst < length h ->
  (List_.unique h lst).1 < length (List_.unique h lst).2.
Proof.
  intros Hlst. rewrite unique_unfold. simpl. rewrite length_app. simpl.
  destruct (List_.unique_loop (List_.items h lst)).2; lia.
Qed.

(** X20.  [unique] is idempotent: applied to an array that [unique] returned, it
    returns that very array. *)
Theorem unique_twice h lst :
  lst < length h ->
  let r := List_.unique h lst in
  let r' := List_.unique r.2 r.1 in
  r'.1 = r.1 /\ List_.items r'.2 r'.1 = List_.items r.2 r.1.
Proof.
  intros Hlst r r'.
  pose proof (unique_result_items h lst Hlst) as Hitems.
  pose proof (unique_result_allocated h lst Hlst) as Halloc.
  fold r in Hitems, Halloc.
  assert (Hsame : r'.1 = r.1).
  { unfold r'. rewrite unique_unfold. cbn [fst snd].
    destruct (unique_loop_spec (List_.items r.2 r.1)) as (_ & _ & Hany).
    rewrite (proj2 Hany); [done|].
    rewrite Hitems. apply first_occurrences_NoDup. }
  split; [done|]. rewrite Hsame.
  unfold r'. rewrite unique_unfold. cbn [fst snd]. by apply items_alloc_old.
Qed.

End UniqueMore.

(** * The claims on the data of the test-suite *)

(** [set(Dict(), "__proto__", 1)] returns a new object without entries. *)
Example set_proto_key_example :
  let r := Dict.set (Dict.Dict [] Dict.NoValue).2 0 "__proto__" 1%Z in
  r.1 = 1 /\ Dict.entries r.2 r.1 = [] /\ Dict.get r.2 r.1 "__proto__" = Nothing.
Proof. vm_compute. repeat split. Qed.

(** An ordinary key is stored. *)
Example set_ordinary_key_example :
  let r := Dict.set (Dict.Dict [] Dict.NoValue).2 0 "a" 1%Z in
  r.1 = 1 /\ Dict.entries r.2 r.1 = [("a"%string, 1%Z)] /\
  Dict.get r.2 r.1 "a" = Something 1%Z.
Proof. vm_compute. repeat split. Qed.

(** [set(Dict(), "constructor", Object)] returns its argument, which has no
    entries. *)
Example set_constructor_example :
  let e := Dict.Dict [] Dict.NoValue in
  let r := Dict.set e.2 e.1 "constructor" SObjectFunction in
  r = e /\ Dict.get r.2 r.1 "constructor" = Nothing.
Proof. vm_compute. repeat split. Qed.

(** The own keys are listed as [Object.keys] lists them: the array indices
    in ascending order, then the other keys in the order of creation. *)
Example key_order_example :
  let r := Dict.Dict [] (Dict.OfPairs [("b", 1); ("10", 2); ("a", 3); ("2", 4)]%string%Z) in
  Dict.keys r.2 r.1 = ["2"; "10"; "b"; "a"]%string.
Proof. vm_compute. reflexivity. Qed.

(** The Dict of [grouped_heap] has one entry, yet [forEach] visits three
    properties in it, [filter] with a predicate that is true of its entry
    returns another object, and its copy has three entries. *)
Example replaced_prototype_example :
  Dict.entries grouped_heap 0 = [("a"%string, SArray [SString "z"])] /\
  Dict.forEach grouped_heap 0 (fun value key calls => calls ++ [(key, value)]) []
  = [("a"%string, SArray [SString "z"]); ("0"%string, SString "x");
     ("1"%string, SString "y")] /\
  (Dict.filter grouped_heap 0 (fun _ key => bool_decide (key = "a"%string))).1 = 1 /\
  (let r := Dict.Dict grouped_heap (Dict.OfDict 0) in Dict.size r.2 r.1 = 3).
Proof. vm_compute. repeat split. Qed.

(** The round trip of [JSON.parse('{"__proto__":1,"a":2}')]. *)
Example round_trip_example :
  Dict.entries parsed_heap 0 = [("__proto__"%string, 1%Z); ("a"%string, 2%Z)] /\
  (let r := Dict.Dict parsed_heap (Dict.OfPairs (Dict.entries parsed_heap 0)) in
   Dict.entries r.2 r.1 = [("a"%string, 2%Z)]).
Proof. vm_compute. repeat split. Qed.

(** [group([1, 2], () => NaN)] is [[[NaN, []]]]. *)
Example group_nan_example :
  List_.group [1; 2]%Z (fun _ _ => NotANumber) = [(NotANumber, [])].
Proof. vm_compute. reflexivity. Qed.

(** [unique([1, 2, 3])] is the array it was given. *)
Example unique_no_duplicates_example :
  (List_.unique [[1; 2; 3]%Z] 0).1 = 0.
Proof. vm_compute. reflexivity. Qed.


Lemma remove_then_get_witness :
  Dict.has test_heap 0 "d" = false /\
  Dict.remove test_heap 0 "d" = (0, test_heap).
Proof.
  split.
  - vm_compute. reflexivity.
  - apply (proj2 (remove_then_get test_heap 0 "d")). vm_compute. reflexivity.
Defined.

Lemma set_proto_key_allocates_a_copy_witness :
  0 < length test_heap /\ plain (deref test_heap 0) /\
  on_object_prototype proto_key 1%Z = false /\
  (let r := Dict.set test_heap 0 proto_key 1%Z in
   r.1 <> 0 /\ forall k, Dict.get r.2 r.1 k = Dict.get test_heap 0 k).
Proof.
  assert (H0 : 0 < length test_heap) by (vm_compute; lia).
  assert (Hpl : plain (deref test_heap 0)) by (split; vm_compute; reflexivity).
  assert (Hv : on_object_prototype proto_key 1%Z = false) by reflexivity.
  split; [exact H0|]. split; [exact Hpl|]. split; [exact Hv|].
  destruct (set_proto_key_allocates_a_copy test_heap 0 1%Z H0 Hpl Hv)
    as (Hne & _ & Hget & _).
  split; [exact Hne|exact Hget].
Defined.

Lemma merge_loses_prototype_member_witness :
  plain (deref constructor_heap 0) /\ plain (deref constructor_heap 1) /\
  Dict.entries constructor_heap 1 = [("constructor"%string, SObjectFunction)] /\
  Dict.get constructor_heap 0 "constructor" = Nothing /\
  on_object_prototype "constructor" SObjectFunction = true /\
  (let r := Dict.merge constructor_heap [0; 1] in
   Dict.get constructor_heap 1 "constructor" = Something SObjectFunction /\
   r = (0, constructor_heap) /\ Dict.get r.2 r.1 "constructor" = Nothing).
Proof.
  assert (Hpl0 : plain (deref constructor_heap 0)) by (split; vm_compute; reflexivity).
  assert (Hpl1 : plain (deref constructor_heap 1)) by (split; vm_compute; reflexivity).
  assert (Hentries : Dict.entries constructor_heap 1
                     = [("constructor"%string, SObjectFunction)])
    by (vm_compute; reflexivity).
  assert (Hnone : Dict.get constructor_heap 0 "constructor" = Nothing)
    by (vm_compute; reflexivity).
  assert (Hv : on_object_prototype "constructor" SObjectFunction = true)
    by (vm_compute; reflexivity).
  split; [exact Hpl0|]. split; [exact Hpl1|]. split; [exact Hentries|].
  split; [exact Hnone|]. split; [exact Hv|].
  exact (merge_loses_prototype_member constructor_heap 0 1 "constructor"
           SObjectFunction Hpl0 Hpl1 Hentries Hnone Hv).
Defined.

Lemma group_loses_items_of_nan_key_witness :
  [1; 2]%Z !! 0 = Some 1%Z /\ is_nan NotANumber = true /\
  (NotANumber, []) ∈ List_.group [1; 2]%Z (fun _ _ => NotANumber).
Proof.
  assert (Hi : [1; 2]%Z !! 0 = Some 1%Z) by reflexivity.
  assert (Hnan : is_nan NotANumber = true) by reflexivity.
  split; [exact Hi|]. split; [exact Hnan|].
  exact (proj1 (group_loses_items_of_nan_key [1; 2]%Z (fun _ _ => NotANumber)
                  0 1%Z Hi Hnan)).
Defined.


Lemma round_trip_loses_proto_key_witness :
  Dict.get parsed_heap 0 proto_key = Something 1%Z /\
  (let r := Dict.Dict parsed_heap (Dict.OfPairs (Dict.entries parsed_heap 0)) in
   (proto_key, 1%Z) ∈ Dict.entries parsed_heap 0 /\
   Dict.get r.2 r.1 proto_key = Nothing).
Proof.
  assert (Hv : Dict.get parsed_heap 0 proto_key = Something 1%Z)
    by (vm_compute; reflexivity).
  split; [exact Hv|].
  destruct (round_trip_loses_proto_key parsed_heap 0 1%Z Hv) as (Hin & Hnone & _).
  split; [exact Hin|exact Hnone].
Defined.

Lemma front_tail_spec_witness :
  2 <= length [1; 2; 3]%Z /\
  List_.front (List_.tail [1; 2; 3]%Z) = List_.tail (List_.front [1; 2; 3]%Z) /\
  length [1%Z] <= 1 /\
  List_.front [1%Z] = [] /\ List_.tail [1%Z] = [].
Proof.
  assert (H2 : 2 <= length [1; 2; 3]%Z) by (simpl; lia).
  assert (H1 : length [1%Z] <= 1) by (simpl; lia).
  split; [exact H2|]. split.
  - apply (proj1 (front_tail_spec [1; 2; 3]%Z) H2).
  - split; [exact H1|]. apply (proj2 (front_tail_spec [1%Z]) H1).
Defined.

Lemma edit_changes_other_keys_witness :
  "0"%string <> "a"%string /\
  Dict.get grouped_heap 0 "0" = Nothing /\
  (let s := Dict.set grouped_heap 0 "a" (SArray []) in
   Dict.get s.2 s.1 "0" = Something (SString "x")) /\
  (let r := Dict.remove grouped_heap 0 "a" in
   Dict.get r.2 r.1 "0" = Something (SString "x")).
Proof.
  assert (Hne : "0"%string <> "a"%string) by discriminate.
  assert (Hnone : Dict.get grouped_heap 0 "0" = Nothing) by (vm_compute; reflexivity).
  assert (Hproto : "0"%string <> proto_key) by discriminate.
  assert (Hin : ("0"%string, SString "x") ∈ for_in_entries (deref grouped_heap 0)).
  { vm_compute. apply list_elem_of_further, list_elem_of_here. }
  split; [exact Hne|]. split; [exact Hnone|].
  destruct (proj1 (edit_changes_other_keys grouped_heap 0 "a" "0" (SArray []) Hne)
              (SString "x") Hproto Hin) as [Hset Hremove].
  split.
  - apply Hset. vm_compute. reflexivity.
  - apply Hremove. vm_compute. reflexivity.
Defined.

(** * The further properties on the data of the test-suite *)

Lemma Dict_of_pairs_last_wins_witness :
  ("a"%string ∉ (@nil (string * Z)).*1) /\ "a"%string ≠ proto_key /\
  (let r := Dict.Dict [] (Dict.OfPairs [("a", 1); ("b", 2); ("a", 3)]%string%Z) in
   Dict.get r.2 r.1 "a" = Something 3%Z).
Proof.
  assert (H1 : "a"%string ∉ (@nil (string * Z)).*1) by apply not_elem_of_nil.
  assert (H2 : "a"%string ≠ proto_key) by discriminate.
  split; [exact H1|]. split; [exact H2|].
  apply (proj1 (proj2 (Dict_of_pairs_last_wins []
                         [("a", 1); ("b", 2); ("a", 3)]%string%Z))
           [("a", 1); ("b", 2)]%string%Z "a"%string 3%Z []);
    [reflexivity|exact H1|exact H2].
Defined.

Lemma Dict_of_dict_is_a_copy_witness :
  0 < length test_heap /\ plain (deref test_heap 0) /\
  (let r := Dict.Dict test_heap (Dict.OfDict 0) in
   r.1 <> 0 /\ Dict.entries r.2 r.1 ≡ₚ Dict.entries test_heap 0).
Proof.
  assert (H0 : 0 < length test_heap) by (vm_compute; lia).
  assert (Hpl : plain (deref test_heap 0)) by (split; vm_compute; reflexivity).
  split; [exact H0|]. split; [exact Hpl|].
  destruct (Dict_of_dict_is_a_copy test_heap 0 H0 Hpl) as (_ & Hne & _ & Hentries & _).
  split; [exact Hne|exact Hentries].
Defined.

Lemma edits_do_not_mutate_witness :
  0 < length test_heap /\
  Dict.get (Dict.set test_heap 0 "a" 7%Z).2 0 "a" = Dict.get test_heap 0 "a".
Proof.
  assert (H0 : 0 < length test_heap) by (vm_compute; lia).
  split; [exact H0|].
  apply (proj1 (edits_do_not_mutate test_heap 0 0 "a" H0)).
Defined.

Lemma merge_does_not_mutate_witness :
  Forall (fun d => d < length test_heap) [0; 1; 2] /\ 0 < length test_heap /\
  Dict.get (Dict.merge test_heap [0; 1; 2]).2 0 "b" = Dict.get test_heap 0 "b".
Proof.
  assert (Hall : Forall (fun d => d < length test_heap) [0; 1; 2]).
  { repeat constructor; vm_compute; lia. }
  assert (H0 : 0 < length test_heap) by (vm_compute; lia).
  split; [exact Hall|]. split; [exact H0|].
  exact (merge_does_not_mutate test_heap 0 1 [2] 0 "b" Hall H0).
Defined.

Lemma set_same_reference_iff_witness :
  0 < length test_heap /\
  Dict.get test_heap 0 "a" = Something 1%Z /\
  ((Dict.set test_heap 0 "a" 7%Z).1 = 0 <-> 1%Z = 7%Z /\ is_nan 7%Z = false).
Proof.
  assert (H0 : 0 < length test_heap) by (vm_compute; lia).
  assert (Ha : Dict.get test_heap 0 "a" = Something 1%Z) by (vm_compute; reflexivity).
  split; [exact H0|]. split; [exact Ha|].
  exact (proj1 (proj2 (proj2 (set_same_reference_iff test_heap 0 "a" 7%Z H0))) 1%Z Ha).
Defined.

Lemma remove_same_reference_iff_witness :
  0 < length test_heap /\
  ((Dict.remove test_heap 0 "a").1 = 0 <-> Dict.get test_heap 0 "a" = Nothing).
Proof.
  assert (H0 : 0 < length test_heap) by (vm_compute; lia).
  split; [exact H0|].
  exact (proj1 (remove_same_reference_iff test_heap 0 "a" H0)).
Defined.

Lemma filter_keeps_passing_entries_witness :
  0 < length test_heap /\ plain (deref test_heap 0) /\
  (let r := Dict.filter test_heap 0 (fun n _ => bool_decide (n < 10)%Z) in
   Dict.get r.2 r.1 "b"
   = match Dict.get test_heap 0 "b" with
     | Something v => if bool_decide (v < 10)%Z then Something v else Nothing
     | Nothing => Nothing
     end).
Proof.
  assert (H0 : 0 < length test_heap) by (vm_compute; lia).
  assert (Hpl : plain (deref test_heap 0)) by (split; vm_compute; reflexivity).
  split; [exact H0|]. split; [exact Hpl|].
  exact (filter_keeps_passing_entries test_heap 0
           (fun n _ => bool_decide (n < 10)%Z) "b" H0 Hpl).
Defined.

Lemma filter_same_reference_iff_every_witness :
  0 < length test_heap /\ proto (deref test_heap 0) = ObjectPrototype /\
  ((Dict.filter test_heap 0 (fun n _ => bool_decide (0 < n)%Z)).1 = 0 <->
   Dict.every test_heap 0 (fun n _ => bool_decide (0 < n)%Z) = true).
Proof.
  assert (H0 : 0 < length test_heap) by (vm_compute; lia).
  assert (Hp : proto (deref test_heap 0) = ObjectPrototype) by (vm_compute; reflexivity).
  split; [exact H0|]. split; [exact Hp|].
  exact (filter_same_reference_iff_every test_heap 0
           (fun n _ => bool_decide (0 < n)%Z) H0 Hp).
Defined.

Lemma every_some_spec_witness :
  Dict.get test_heap 0 "b" = Something 999%Z /\
  Dict.some test_heap 0 (fun n _ => bool_decide (10 < n)%Z) = true.
Proof.
  assert (Hb : Dict.get test_heap 0 "b" = Something 999%Z).
  { vm_compute. reflexivity. }
  split; [exact Hb|].
  apply (proj2 (proj1 (proj2 (every_some_spec test_heap 0
                                (fun n _ => bool_decide (10 < n)%Z))))).
  exists "b"%string, 999%Z. split; [exact Hb|reflexivity].
Defined.

Lemma map_transforms_every_value_witness :
  0 < length test_heap /\ plain (deref test_heap 0) /\
  (let r := Dict.map test_heap 0 (fun n _ => n + 1)%Z in
   Dict.get r.2 r.1 "a"
   = match Dict.get test_heap 0 "a" with
     | Something v => Something (v + 1)%Z
     | Nothing => Nothing
     end).
Proof.
  assert (H0 : 0 < length test_heap) by (vm_compute; lia).
  assert (Hpl : plain (deref test_heap 0)) by (split; vm_compute; reflexivity).
  split; [exact H0|]. split; [exact Hpl|].
  exact (map_transforms_every_value test_heap 0 (fun n _ => n + 1)%Z "a" H0 Hpl).
Defined.

Lemma map_same_reference_iff_witness :
  0 < length test_heap /\ proto (deref test_heap 0) = ObjectPrototype /\
  (Dict.map test_heap 0 (fun n _ => n)).1 = 0.
Proof.
  assert (H0 : 0 < length test_heap) by (vm_compute; lia).
  assert (Hp : proto (deref test_heap 0) = ObjectPrototype) by (vm_compute; reflexivity).
  split; [exact H0|]. split; [exact Hp|].
  apply (proj2 (map_same_reference_iff test_heap 0 (fun n _ => n) H0 Hp)).
  intros k v _. rewrite strict_equal_refl. reflexivity.
Defined.

Lemma keys_values_entries_agree_witness :
  Dict.has test_heap 0 "c" = true /\ "c"%string ∈ Dict.keys test_heap 0.
Proof.
  assert (Hc : Dict.has test_heap 0 "c" = true) by (vm_compute; reflexivity).
  split; [exact Hc|].
  destruct (keys_values_entries_agree test_heap 0) as (_ & _ & _ & _ & Hkeys & _).
  apply (proj2 (Hkeys "c"%string) Hc).
Defined.

Lemma size_after_edit_witness :
  plain (deref test_heap 0) /\ "d"%string ≠ proto_key /\
  on_object_prototype "d" 4%Z = false /\
  (let r := Dict.set test_heap 0 "d" 4%Z in
   Dict.size r.2 r.1
   = if Dict.has test_heap 0 "d" then Dict.size test_heap 0
     else S (Dict.size test_heap 0)).
Proof.
  assert (Hpl : plain (deref test_heap 0)) by (split; vm_compute; reflexivity).
  assert (Hd : "d"%string ≠ proto_key) by discriminate.
  assert (Hv : on_object_prototype "d" 4%Z = false) by reflexivity.
  split; [exact Hpl|]. split; [exact Hd|]. split; [exact Hv|].
  exact (proj1 (size_after_edit test_heap 0 "d" 4%Z Hpl Hd Hv)).
Defined.

Lemma reduce_after_set_witness :
  (forall a v1 (k1 : string) v2 (k2 : string), (a + v1 + v2 = a + v2 + v1)%Z) /\
  plain (deref test_heap 0) /\ "d"%string ≠ proto_key /\
  on_object_prototype "d" 4%Z = false /\
  Dict.get test_heap 0 "d" = Nothing /\
  (let r := Dict.set test_heap 0 "d" 4%Z in
   Dict.reduce r.2 r.1 (fun sum n _ => sum + n)%Z 0%Z
   = Z.add (Dict.reduce test_heap 0 (fun sum n _ => sum + n)%Z 0%Z) 4%Z).
Proof.
  assert (Hcomm : forall a v1 (k1 : string) v2 (k2 : string),
             (a + v1 + v2 = a + v2 + v1)%Z) by (intros; lia).
  assert (Hpl : plain (deref test_heap 0)) by (split; vm_compute; reflexivity).
  assert (Hd : "d"%string ≠ proto_key) by discriminate.
  assert (Hv : on_object_prototype "d" 4%Z = false) by reflexivity.
  assert (Hnew : Dict.get test_heap 0 "d" = Nothing) by (vm_compute; reflexivity).
  split; [exact Hcomm|]. split; [exact Hpl|]. split; [exact Hd|].
  split; [exact Hv|]. split; [exact Hnew|].
  exact (reduce_after_set test_heap 0 "d" 4%Z (fun sum n _ => sum + n)%Z 0%Z
           Hcomm Hpl Hd Hv Hnew).
Defined.

Lemma merge_in_two_steps_witness :
  0 < length test_heap /\ 1 < length test_heap /\ 2 < length test_heap /\
  (let r := Dict.merge test_heap [0; 1; 2] in
   let r1 := Dict.merge test_heap [0; 1] in
   let r2 := Dict.merge r1.2 [r1.1; 2] in
   Dict.get r2.2 r2.1 "e" = Dict.get r.2 r.1 "e").
Proof.
  assert (H0 : 0 < length test_heap) by (vm_compute; lia).
  assert (H1 : 1 < length test_heap) by (vm_compute; lia).
  assert (H2 : 2 < length test_heap) by (vm_compute; lia).
  split; [exact H0|]. split; [exact H1|]. split; [exact H2|].
  exact (merge_in_two_steps test_heap 0 1 2 "e" H0 H1 H2).
Defined.

Lemma merge_with_itself_witness :
  0 < length nan_heap /\ proto (deref nan_heap 0) = ObjectPrototype /\
  Dict.get nan_heap 0 "a" = Something SNaN /\ is_nan SNaN = true /\
  (Dict.merge nan_heap [0; 0]).1 <> 0.
Proof.
  assert (H0 : 0 < length nan_heap) by (vm_compute; lia).
  assert (Hp : proto (deref nan_heap 0) = ObjectPrototype) by (vm_compute; reflexivity).
  assert (Ha : Dict.get nan_heap 0 "a" = Something SNaN) by (vm_compute; reflexivity).
  assert (Hnan : is_nan SNaN = true) by reflexivity.
  split; [exact H0|]. split; [exact Hp|]. split; [exact Ha|]. split; [exact Hnan|].
  exact (proj2 (merge_with_itself nan_heap 0 H0 Hp) "a"%string SNaN Ha Hnan).
Defined.

Lemma accessors_take_the_list_apart_witness :
  List_.end_ [1; 2; 3]%Z = Something 3%Z /\
  [1; 2; 3]%Z = List_.front [1; 2; 3]%Z ++ [3%Z].
Proof.
  assert (He : List_.end_ [1; 2; 3]%Z = Something 3%Z) by reflexivity.
  split; [exact He|].
  apply (proj2 (proj2 (proj2 (accessors_take_the_list_apart [1; 2; 3]%Z))) 3%Z He).
Defined.

Lemma unique_twice_witness :
  0 < length test_arrays /\
  (let r := List_.unique test_arrays 0 in
   let r' := List_.unique r.2 r.1 in
   r'.1 = r.1 /\ List_.items r'.2 r'.1 = List_.items r.2 r.1).
Proof.
  assert (H0 : 0 < length test_arrays) by (simpl; lia).
  split; [exact H0|]. exact (unique_twice test_arrays 0 H0).
Defined.

Lemma group_is_a_partition_witness :
  (forall (i : nat) (x : string), ["red"; "blue"; "green"]%string !! i = Some x ->
                is_nan (by_length x i) = false) /\
  concat (List_.group ["red"; "blue"; "green"]%string by_length).*2
  ≡ₚ ["red"; "blue"; "green"]%string.
Proof.
  assert (Hnan : forall (i : nat) (x : string),
             ["red"; "blue"; "green"]%string !! i = Some x ->
             is_nan (by_length x i) = false) by (intros; reflexivity).
  split; [exact Hnan|].
  exact (group_is_a_partition ["red"; "blue"; "green"]%string by_length Hnan).
Defined.

Lemma group_has_no_empty_group_witness :
  (forall (i : nat) (x : string), ["red"; "blue"; "green"]%string !! i = Some x ->
                is_nan (by_length x i) = false) /\
  (4, ["blue"%string]) ∈ List_.group ["red"; "blue"; "green"]%string by_length /\
  ["blue"%string] <> [].
Proof.
  assert (Hnan : forall (i : nat) (x : string),
             ["red"; "blue"; "green"]%string !! i = Some x ->
             is_nan (by_length x i) = false) by (intros; reflexivity).
  assert (Hin : (4, ["blue"%string])
                ∈ List_.group ["red"; "blue"; "green"]%string by_length).
  { vm_compute. apply list_elem_of_further, list_elem_of_here. }
  split; [exact Hnan|]. split; [exact Hin|].
  exact (proj2 (group_has_no_empty_group ["red"; "blue"; "green"]%string by_length Hnan)
           4 ["blue"%string] Hin).
Defined.

Lemma groupInto_lookup_witness :
  "r"%string ≠ proto_key /\
  "r"%string ∈ imap (fun (i : nat) (x : sample) => first_letter x i)
                 [SString "red"; SString "rose"; SString "blue"] /\
  (let r := List_.groupInto [] [SString "red"; SString "rose"; SString "blue"]
              first_letter in
   Dict.get r.2 r.1 "r"
   = Something (SArray (members_with_key first_letter
                          [SString "red"; SString "rose"; SString "blue"]
                          "r"%string))).
Proof.
  assert (Hr : "r"%string ≠ proto_key) by discriminate.
  assert (Hin : "r"%string ∈ imap (fun (i : nat) (x : sample) => first_letter x i)
                              [SString "red"; SString "rose"; SString "blue"]).
  { vm_compute. apply list_elem_of_here. }
  split; [exact Hr|]. split; [exact Hin|].
  exact (proj1 (proj2 (groupInto_lookup []
                         [SString "red"; SString "rose"; SString "blue"]
                         first_letter "r"%string Hr)) Hin).
Defined.

Lemma edits_compose_witness :
  plain (deref test_heap 0) /\
  "a"%string ≠ "d"%string /\ "a"%string ≠ proto_key /\ "d"%string ≠ proto_key /\
  (let r := Dict.set test_heap 0 "a" 7%Z in
   let r' := Dict.set r.2 r.1 "d" 4%Z in
   let s := Dict.set test_heap 0 "d" 4%Z in
   let s' := Dict.set s.2 s.1 "a" 7%Z in
   Dict.get r'.2 r'.1 "a" = Dict.get s'.2 s'.1 "a").
Proof.
  assert (Hpl : plain (deref test_heap 0)) by (split; vm_compute; reflexivity).
  assert (Hne : "a"%string ≠ "d"%string) by discriminate.
  assert (Ha : "a"%string ≠ proto_key) by discriminate.
  assert (Hd : "d"%string ≠ proto_key) by discriminate.
  split; [exact Hpl|]. split; [exact Hne|]. split; [exact Ha|]. split; [exact Hd|].
  exact (proj1 (proj2 (edits_compose test_heap 0 "a" Hpl))
           "a"%string 7%Z "d"%string 4%Z Hne Ha Hd).
Defined.

Lemma forEach_visits_the_entries_witness :
  proto (deref test_heap 0) = ObjectPrototype /\
  Dict.forEach test_heap 0 (fun value key calls => calls ++ [(key, value)]) []
  = Dict.entries test_heap 0.
Proof.
  assert (Hp : proto (deref test_heap 0) = ObjectPrototype) by (vm_compute; reflexivity).
  split; [exact Hp|]. exact (forEach_visits_the_entries test_heap 0 Hp).
Defined.

Lemma get_after_set_witness :
  "a"%string ≠ proto_key /\
  read_equals (deref test_heap 0) "a" 7%Z = false /\
  (let r := Dict.set test_heap 0 "a" 7%Z in Dict.get r.2 r.1 "a" = Something 7%Z).
Proof.
  assert (Ha : "a"%string ≠ proto_key) by discriminate.
  assert (Hneq : read_equals (deref test_heap 0) "a" 7%Z = false)
    by (vm_compute; reflexivity).
  split; [exact Ha|]. split; [exact Hneq|].
  exact (get_after_set test_heap 0 "a" 7%Z Ha (or_intror Hneq)).
Defined.

Lemma identity_preserved_witness :
  proto (deref test_heap 0) = ObjectPrototype /\
  (Dict.filter test_heap 0 (fun _ _ => true)).1 = 0 /\
  Dict.get test_heap 0 "b" = Something 999%Z /\
  strict_equal 999%Z 999%Z = true /\
  Dict.set test_heap 0 "b" 999%Z = (0, test_heap).
Proof.
  assert (Hp : proto (deref test_heap 0) = ObjectPrototype) by (vm_compute; reflexivity).
  assert (Hb : Dict.get test_heap 0 "b" = Something 999%Z) by (vm_compute; reflexivity).
  assert (Heq : strict_equal 999%Z 999%Z = true) by reflexivity.
  split; [exact Hp|]. split; [|split; [exact Hb|split; [exact Heq|]]].
  - apply (proj1 (identity_preserved test_heap 0) (fun _ _ => true) Hp).
    intros k v _. reflexivity.
  - exact (proj1 (proj2 (identity_preserved test_heap 0)) "b"%string 999%Z 999%Z Hb Heq).
Defined.

Lemma merge_spec_witness :
  Forall (fun d => d < length test_heap) [0; 1; 2] /\
  Forall (fun d => plain (deref test_heap d)) [0; 1; 2] /\
  (forall d (k : string) (v : Z), d ∈ [1; 2] -> Dict.get test_heap d k = Something v ->
                on_object_prototype k v = false) /\
  Dict.get test_heap 2 "b" = Something 1%Z /\
  (let r := Dict.merge test_heap [0; 1; 2] in
   Dict.get r.2 r.1 "b" = Something 1%Z).
Proof.
  assert (Hall : Forall (fun d => d < length test_heap) [0; 1; 2]).
  { repeat constructor; vm_compute; lia. }
  assert (Hplain : Forall (fun d => plain (deref test_heap d)) [0; 1; 2]).
  { repeat constructor; vm_compute; reflexivity. }
  assert (Hord : forall d (k : string) (v : Z), d ∈ [1; 2] ->
             Dict.get test_heap d k = Something v ->
             on_object_prototype k v = false) by (intros; reflexivity).
  assert (Hb : Dict.get test_heap 2 "b" = Something 1%Z).
  { vm_compute. reflexivity. }
  split; [exact Hall|]. split; [exact Hplain|]. split; [exact Hord|].
  split; [exact Hb|].
  destruct (merge_spec test_heap 0 1 [2] Hall Hplain Hord) as (_ & _ & _ & Hright & _).
  apply (Hright [0; 1] 2 []); [reflexivity|exact Hb|].
  intros d' Hd'. by apply elem_of_nil in Hd'.
Defined.

Lemma group_spec_witness :
  (forall (i : nat) (x : string), ["red"; "blue"; "green"]%string !! i = Some x ->
                is_nan (by_length x i) = false) /\
  ["red"; "blue"; "green"]%string !! 1 = Some "blue"%string /\
  exists ms, (4, ms) ∈ List_.group ["red"; "blue"; "green"]%string by_length /\
             "blue"%string ∈ ms.
Proof.
  assert (Hnan : forall (i : nat) (x : string),
             ["red"; "blue"; "green"]%string !! i = Some x ->
             is_nan (by_length x i) = false) by (intros; reflexivity).
  split; [exact Hnan|]. split; [reflexivity|].
  destruct (group_spec ["red"; "blue"; "green"]%string by_length Hnan)
    as (_ & _ & _ & Hmember).
  apply (Hmember 1 "blue"%string). reflexivity.
Defined.

Lemma entries_round_trip_witness :
  Dict.get test_heap 0 proto_key = Nothing /\
  (let r := Dict.Dict test_heap (Dict.OfPairs (Dict.entries test_heap 0)) in
   Dict.entries r.2 r.1 ≡ₚ Dict.entries test_heap 0).
Proof.
  assert (Hnone : Dict.get test_heap 0 proto_key = Nothing) by (vm_compute; reflexivity).
  split; [exact Hnone|].
  exact (proj2 (proj2 (entries_round_trip test_heap 0 Hnone))).
Defined.

Lemma edit_frame_witness :
  plain (deref test_heap 0) /\ "b"%string <> "a"%string /\
  (let r := Dict.set test_heap 0 "a" 7%Z in
   Dict.get r.2 r.1 "b" = Dict.get test_heap 0 "b") /\
  (let r := Dict.remove test_heap 0 "a" in
   Dict.get r.2 r.1 "b" = Dict.get test_heap 0 "b").
Proof.
  assert (Hpl : plain (deref test_heap 0)) by (split; vm_compute; reflexivity).
  assert (Hne : "b"%string <> "a"%string) by discriminate.
  split; [exact Hpl|]. split; [exact Hne|].
  exact (edit_frame test_heap 0 "a" "b" 7%Z Hpl Hne).
Defined.

Lemma groupInto_proto_key_replaces_prototype_witness :
  proto_key ∈ imap (fun (i : nat) (x : sample) => proto_or_a x i)
                [SString "x"; SString "y"; SString "z"] /\
  (let r := List_.groupInto [] [SString "x"; SString "y"; SString "z"] proto_or_a in
   Dict.get r.2 r.1 proto_key = Nothing /\
   proto (deref r.2 r.1) = Replaced (SArray [SString "x"; SString "y"])).
Proof.
  assert (Hin : proto_key ∈ imap (fun (i : nat) (x : sample) => proto_or_a x i)
                             [SString "x"; SString "y"; SString "z"]).
  { vm_compute. apply list_elem_of_here. }
  split; [exact Hin|].
  destruct (groupInto_proto_key_replaces_prototype []
              [SString "x"; SString "y"; SString "z"] proto_or_a Hin)
    as (Hnone & Hproto & _).
  split; [exact Hnone|]. apply Hproto. vm_compute. eexists. reflexivity.
Defined.
